(** * Permutohedral lattice filtering on the GPU (simplex-gp)

    A shallow embedding of [permutohedral_cuda_kernel] (the version with the
    replay buffer, [HashTableGPU::insert], [splat_kernel], [slice_kernel],
    [PermutohedralLatticeGPU] and [permutohedral_cuda_filter]).

    Conventions of the embedding:
    - [scalar_t] arithmetic is exact rational arithmetic ([Q]);
    - [int16_t] values are [Z] with the 16-bit wrap-around written out
      ([wrap16]); [size_t] arithmetic is [Z] modulo 2^64 ([wrap64]);
    - a [double] to [int16_t] conversion that is out of range clamps, as
      the device conversion instruction does ([cvt_s16]);
    - tensors are row-major flat buffers with an explicit shape;
    - the math library [sqrt] is a parameter of the host-side constructor. *)

From Stdlib Require Import ZArith QArith Qround Lia Lqa Permutation.
From stdpp Require Import base list.

Open Scope Z_scope.

(* ------------------------------------------------------------------ *)
(** ** Machine integers *)

(** Conversion of an integer into [int16_t] (two's complement wrap). *)
Definition wrap16 (z : Z) : Z := (z + 32768) mod 65536 - 32768.

(** [static_cast<int16_t>] of an integral [double]: the device conversion
    clamps to the destination range. *)
Definition cvt_s16 (z : Z) : Z := Z.max (-32768) (Z.min 32767 z).

(** [size_t] arithmetic. *)
Definition wrap64 (z : Z) : Z := z mod 2 ^ 64.

Definition in_i16 (z : Z) : Prop := -32768 <= z <= 32767.

(** C [round]: to nearest, halfway cases away from zero. *)
Definition c_round (q : Q) : Z :=
  if Qle_bool 0 q then Qfloor (q + (1 # 2))
  else - Qfloor (- q + (1 # 2)).

Lemma wrap16_id (z : Z) : in_i16 z -> wrap16 z = z.
Proof.
  unfold in_i16, wrap16; intros Hz.
  rewrite Z.mod_small by lia. lia.
Qed.

Lemma wrap16_range (z : Z) : in_i16 (wrap16 z).
Proof.
  unfold in_i16, wrap16.
  pose proof (Z.mod_pos_bound (z + 32768) 65536 ltac:(lia)). lia.
Qed.

Lemma wrap16_add (a b : Z) : wrap16 (wrap16 a + b) = wrap16 (a + b).
Proof.
  unfold wrap16.
  replace ((a + 32768) mod 65536 - 32768 + b + 32768)
    with ((a + 32768) mod 65536 + b) by lia.
  rewrite Zplus_mod_idemp_l.
  replace (a + 32768 + b) with (a + b + 32768) by lia.
  reflexivity.
Qed.

Lemma wrap16_add' (a b : Z) : wrap16 (a + wrap16 b) = wrap16 (a + b).
Proof. rewrite Z.add_comm, wrap16_add, Z.add_comm. reflexivity. Qed.

Lemma wrap16_abs (z : Z) : Z.abs (wrap16 z) <= Z.abs z.
Proof.
  destruct (Z_le_gt_dec (-32768) z); [destruct (Z_le_gt_dec z 32767)|].
  - rewrite wrap16_id by (unfold in_i16; lia). lia.
  - pose proof (wrap16_range z). unfold in_i16 in *. lia.
  - pose proof (wrap16_range z). unfold in_i16 in *. lia.
Qed.

Lemma cvt_s16_id (z : Z) : in_i16 z -> cvt_s16 z = z.
Proof. unfold in_i16, cvt_s16. lia. Qed.

(* ------------------------------------------------------------------ *)
(** ** The canonical offset table
    ([PermutohedralLatticeGPU] constructor):
<<
    for (uint16_t i = 0; i <= pd; ++i) {
      for (uint16_t j = 0; j <= pd - i; ++j)
        canonical[i * (pd + 1) + j] = i;
      for (uint16_t j = pd - i + 1; j <= pd; ++j)
        canonical[i * (pd + 1) + j] = i - (pd + 1);
    }
>>
    The managed allocation is modelled as a zero buffer; every cell is
    overwritten. *)

Definition canonical_row (pd : nat) (c : list Z) (i : nat) : list Z :=
  let c := fold_left (fun c j => <[(i * (pd + 1) + j)%nat := wrap16 (Z.of_nat i)]> c)
             (seq 0 (pd - i + 1)%nat) c in
  fold_left (fun c j => <[(i * (pd + 1) + j)%nat := wrap16 (Z.of_nat i - Z.of_nat (pd + 1))]> c)
    (seq (pd - i + 1)%nat i) c.

Definition canonical_table (pd : nat) : list Z :=
  fold_left (canonical_row pd) (seq 0 (pd + 1)%nat)
    (replicate ((pd + 1) * (pd + 1))%nat 0).

(** The entry the table should hold in row [i], column [j]. *)
Definition canonical_entry (pd i j : nat) : Z :=
  if (j <=? pd - i)%nat then Z.of_nat i else Z.of_nat i - Z.of_nat (pd + 1).

Example canonical_table_2 :
  canonical_table 2 = [0; 0; 0; 1; 1; -2; 2; -1; -1].
Proof. reflexivity. Qed.

(** A loop [for j in [a, a+m)] writing one value at offset [b + j]. *)
Lemma fold_write_seq (b a m : nat) (v : Z) (c : list Z) (k : nat) :
  (k < length c)%nat ->
  fold_left (fun c j => <[(b + j)%nat := v]> c) (seq a m) c !! k =
  if decide (b + a <= k < b + a + m)%nat then Some v else c !! k.
Proof.
  revert a c. induction m as [|m IH]; intros a c Hk; simpl.
  - destruct (decide _); [lia | reflexivity].
  - rewrite IH by (rewrite length_insert; lia).
    rewrite list_lookup_insert.
    repeat case_decide; try lia; reflexivity.
Qed.

Lemma fold_write_seq_length (b a m : nat) (v : Z) (c : list Z) :
  length (fold_left (fun c j => <[(b + j)%nat := v]> c) (seq a m) c) = length c.
Proof.
  revert a c. induction m as [|m IH]; intros a c; simpl; [reflexivity|].
  rewrite IH, length_insert. reflexivity.
Qed.

Lemma canonical_row_length pd c i : length (canonical_row pd c i) = length c.
Proof.
  unfold canonical_row.
  rewrite (fold_write_seq_length (i * (pd + 1))).
  apply (fold_write_seq_length (i * (pd + 1))).
Qed.

Lemma canonical_row_lookup pd c i k :
  (i <= pd)%nat -> (k < length c)%nat ->
  canonical_row pd c i !! k =
  if decide (i * (pd + 1) <= k < i * (pd + 1) + (pd + 1))%nat
  then Some (wrap16 (canonical_entry pd i (k - i * (pd + 1))))
  else c !! k.
Proof.
  intros Hi Hk. unfold canonical_row, canonical_entry.
  rewrite (fold_write_seq (i * (pd + 1)))
    by (rewrite (fold_write_seq_length (i * (pd + 1))); exact Hk).
  rewrite (fold_write_seq (i * (pd + 1))) by exact Hk.
  repeat case_decide; try lia; try reflexivity;
    destruct (Nat.leb_spec (k - i * (pd + 1)) (pd - i));
    try lia; try reflexivity; do 2 f_equal; lia.
Qed.

Lemma div_mod_row (pd i j : nat) :
  (j <= pd)%nat ->
  ((i * (pd + 1) + j) / (pd + 1) = i /\ (i * (pd + 1) + j) mod (pd + 1) = j)%nat.
Proof.
  intros Hj. split.
  - symmetry. apply (Nat.div_unique _ _ _ j); lia.
  - symmetry. apply (Nat.mod_unique _ _ i); lia.
Qed.

Lemma canonical_prefix pd m k :
  (m <= pd + 1)%nat -> (k < (pd + 1) * (pd + 1))%nat ->
  fold_left (canonical_row pd) (seq 0 m) (replicate ((pd + 1) * (pd + 1))%nat 0) !! k =
  if decide (k < m * (pd + 1))%nat
  then Some (wrap16 (canonical_entry pd (k / (pd + 1)) (k mod (pd + 1))))
  else Some 0.
Proof.
  induction m as [|m IH]; intros Hm Hk.
  - cbn [seq fold_left]. rewrite decide_False by lia.
    apply lookup_replicate_2. exact Hk.
  - rewrite seq_S, fold_left_app. cbn [fold_left]. rewrite Nat.add_0_l.
    assert (Hlen : forall m', length (fold_left (canonical_row pd) (seq 0 m')
              (replicate ((pd + 1) * (pd + 1))%nat 0)) = ((pd + 1) * (pd + 1))%nat).
    { intros m'. rewrite <- (length_replicate ((pd + 1) * (pd + 1))%nat (0:Z)) at 2.
      generalize (replicate ((pd + 1) * (pd + 1))%nat (0:Z)).
      induction (seq 0 m') as [|x l IHl]; intros c'; simpl; [reflexivity|].
      rewrite IHl, canonical_row_length. reflexivity. }
    rewrite canonical_row_lookup by (try rewrite Hlen; lia).
    destruct (decide (m * (pd + 1) <= k < m * (pd + 1) + (pd + 1))%nat) as [Hin|Hout].
    + destruct (decide (k < S m * (pd + 1))%nat); [|lia].
      pose proof (div_mod_row pd m (k - m * (pd + 1)) ltac:(lia)) as [Hd Hmod].
      replace (m * (pd + 1) + (k - m * (pd + 1)))%nat with k in Hd, Hmod by lia.
      rewrite Hd, Hmod. reflexivity.
    + rewrite IH by lia.
      repeat case_decide; try lia; reflexivity.
Qed.

Lemma canonical_lookup pd i j :
  (i <= pd)%nat -> (j <= pd)%nat ->
  canonical_table pd !! (i * (pd + 1) + j)%nat = Some (wrap16 (canonical_entry pd i j)).
Proof.
  intros Hi Hj. unfold canonical_table.
  rewrite canonical_prefix by nia.
  rewrite decide_True by nia.
  destruct (div_mod_row pd i j Hj) as [-> ->]. reflexivity.
Qed.

(** Sums of [int] vectors. *)
Definition Zsum (l : list Z) : Z := fold_right Z.add 0 l.

Lemma Zsum_app l1 l2 : Zsum (l1 ++ l2) = Zsum l1 + Zsum l2.
Proof. induction l1; simpl; [reflexivity|]. rewrite IHl1. lia. Qed.

Lemma Zsum_perm l1 l2 : Permutation l1 l2 -> Zsum l1 = Zsum l2.
Proof. induction 1; simpl; lia. Qed.

Lemma Zsum_const_seq (f : nat -> Z) (c : Z) a m :
  (forall j, (a <= j < a + m)%nat -> f j = c) ->
  Zsum (map f (seq a m)) = Z.of_nat m * c.
Proof.
  revert a. induction m as [|m IH]; intros a Hf; simpl; [lia|].
  rewrite Hf by lia. rewrite IH by (intros; apply Hf; lia). lia.
Qed.

Lemma canonical_row_sum pd r :
  (r <= pd)%nat ->
  Zsum (map (canonical_entry pd r) (seq 0 (pd + 1))) = 0.
Proof.
  intros Hr.
  replace (pd + 1)%nat with ((pd - r + 1) + r)%nat by lia.
  rewrite seq_app, map_app, Zsum_app.
  rewrite (Zsum_const_seq _ (Z.of_nat r)).
  2: { intros j Hj. unfold canonical_entry.
       destruct (Nat.leb_spec j (pd - r)); lia. }
  rewrite (Zsum_const_seq _ (Z.of_nat r - Z.of_nat (pd + 1))).
  2: { intros j Hj. unfold canonical_entry.
       destruct (Nat.leb_spec j (pd - r)); lia. }
  rewrite Nat2Z.inj_add, Nat2Z.inj_sub by lia. nia.
Qed.

Lemma canonical_entry_i16 pd r j :
  Z.of_nat pd <= 32767 -> (r <= pd)%nat -> in_i16 (canonical_entry pd r j).
Proof.
  intros Hpd Hr. unfold in_i16, canonical_entry.
  destruct (Nat.leb_spec j (pd - r)); lia.
Qed.

Lemma Zsum_zip_add (g : Z -> Z) (y rank : list Z) :
  length y = length rank ->
  Zsum (zip_with (fun yi ri => yi + g ri) y rank) = Zsum y + Zsum (map g rank).
Proof.
  revert rank. induction y as [|a y IH]; intros [|b rank] Hl; simpl in *; try lia.
  rewrite IH by lia. lia.
Qed.

(* ------------------------------------------------------------------ *)
(** ** Host-side scale factors ([PermutohedralLatticeGPU] constructor)
<<
    scalar_t invStdDev = (pd + 1) * sqrt(2.0f / 3);
    for (uint16_t i = 0; i < pd; ++i)
      scaleFactor[i] = invStdDev / ((scalar_t) sqrt((i + 1) * (i + 2)));
>> *)

Definition lattice_scale_factors (sqrt : Q -> Q) (pd : nat) : list Q :=
  let invStdDev := (inject_Z (Z.of_nat pd + 1) * sqrt (2 # 3))%Q in
  map (fun i => invStdDev / sqrt (inject_Z (Z.of_nat ((i + 1) * (i + 2)))))%Q
    (seq 0 pd).

(** A concrete math library square root: the exact root rounded down to
    52 fractional bits. *)
Definition libm_sqrt (q : Q) : Q :=
  Qmake (Z.sqrt (Qnum q * 2 ^ 104 / Zpos (Qden q))) (2 ^ 52)%positive.

(* ------------------------------------------------------------------ *)
(** ** Per-point geometry of [splat_kernel]

    Reads of a row use the zero default of the [torch::zeros] buffers. *)

Definition qnth (l : list Q) (i : nat) : Q := nth i l 0%Q.

(** A read at an [int] index; out of the buffer it yields 0. *)
Definition znth (l : list Z) (i : Z) : Z :=
  if 0 <=? i then nth (Z.to_nat i) l 0 else 0.

(** A read-modify-write at an [int] index of a [scalar_t] row; a write that
    falls outside the row leaves the row unchanged. *)
Definition zalter (f : Q -> Q) (k : Z) (l : list Q) : list Q :=
  if (0 <=? k) && (k <? Z.of_nat (length l)) then alter f (Z.to_nat k) l else l.

(**
<<
  elevated[pd] = - pd * pos[pd - 1] * scaleFactor[pd - 1];
  for (uint16_t i = pd - 1; i > 0; i--)
    elevated[i] = elevated[i + 1] - i * pos[i - 1] * scaleFactor[i - 1] +
                  (i + 2) * pos[i] * scaleFactor[i];
  elevated[0] = elevated[1] + 2.0 * pos[0] * scaleFactor[0];
>> *)
Fixpoint elevate_loop (pos sf : list Q) (i : nat) (e : list Q) : list Q :=
  match i with
  | O => e
  | S i' =>
      elevate_loop pos sf i'
        (<[i := (qnth e (i + 1) - inject_Z (Z.of_nat i) * qnth pos i' * qnth sf i'
                 + inject_Z (Z.of_nat i + 2) * qnth pos i * qnth sf i)%Q]> e)
  end.

Definition elevate (pd : nat) (pos sf : list Q) : list Q :=
  let e := replicate (pd + 1) 0%Q in
  let e := <[pd := (- inject_Z (Z.of_nat pd) * qnth pos (pd - 1) * qnth sf (pd - 1))%Q]> e in
  let e := elevate_loop pos sf (pd - 1) e in
  <[0%nat := (qnth e 1 + 2 * qnth pos 0 * qnth sf 0)%Q]> e.

(** [y[i] = static_cast<int16_t>(round(elevated[i] / (pd + 1))) * (pd + 1);] *)
Definition round_y (pd : nat) (ei : Q) : Z :=
  wrap16 (cvt_s16 (c_round (ei / inject_Z (Z.of_nat pd + 1))) * (Z.of_nat pd + 1)).

(** [h += y[i];] over all axes, in [int16_t]. *)
Definition remainder_sum (ys : list Z) : Z :=
  fold_left (fun h yi => wrap16 (h + yi)) ys 0.

(** One comparison of the ranking loop:
<<
      if (elevated[i] - y[i] < elevated[j] - y[j]) rank[i]++; else rank[j]++;
>> *)
Definition rank_step (d : nat -> Q) (rank : list Z) (i j : nat) : list Z :=
  if negb (Qle_bool (d j) (d i))
  then alter (fun r => wrap16 (r + 1)) i rank
  else alter (fun r => wrap16 (r + 1)) j rank.

Definition ranking (pd : nat) (d : nat -> Q) : list Z :=
  fold_left (fun rank i =>
      fold_left (fun rank j => rank_step d rank i j) (seq (i + 1) (pd - i)) rank)
    (seq 0 pd) (replicate (pd + 1) 0).

(** The rank correction, one axis at a time:
<<
  if (h > 0) { ... if (rank[i] >= pd + 1 - h) { y[i] -= pd + 1; rank[i] += h - (pd + 1); }
                   else rank[i] += h; }
  else if (h < 0) { ... if (rank[i] < -h) { y[i] += pd + 1; rank[i] += h + (pd + 1); }
                        else rank[i] += h; }
>> *)
Definition correct_pos (P h yi ri : Z) : Z * Z :=
  if P - h <=? ri then (wrap16 (yi - P), wrap16 (ri + (h - P)))
  else (yi, wrap16 (ri + h)).

Definition correct_neg (P h yi ri : Z) : Z * Z :=
  if ri <? - h then (wrap16 (yi + P), wrap16 (ri + (h + P)))
  else (yi, wrap16 (ri + h)).

Definition rank_correction (pd : nat) (h : Z) (y rank : list Z) : list Z * list Z :=
  let P := Z.of_nat pd + 1 in
  if 0 <? h then
    let yr := zip_with (correct_pos P h) y rank in (map fst yr, map snd yr)
  else if h <? 0 then
    let yr := zip_with (correct_neg P h) y rank in (map fst yr, map snd yr)
  else (y, rank).

(**
<<
  for (uint16_t i = 0; i <= pd; ++i) {
    scalar_t delta = static_cast<scalar_t>(elevated[i] - y[i]) / (pd + 1);
    bary[pd - rank[i]] += delta;
    bary[pd + 1 - rank[i]] -= delta;
  }
  bary[0] += 1.0 + bary[pd + 1];
>> *)
Definition barycentric (pd : nat) (e : list Q) (y rank : list Z) : list Q :=
  let P := Z.of_nat pd + 1 in
  let b := fold_left (fun b i =>
             let delta := ((qnth e i - inject_Z (y !!! i)) / inject_Z P)%Q in
             let b := zalter (fun v => v + delta)%Q (Z.of_nat pd - rank !!! i) b in
             zalter (fun v => v - delta)%Q (Z.of_nat pd + 1 - rank !!! i) b)
           (seq 0 (pd + 1)) (replicate (pd + 2) 0%Q) in
  zalter (fun v => v + (1 + qnth b (pd + 1)))%Q 0 b.

(** The working rows of one thread of [splat_kernel]. *)
Record geometry := {
  g_elevated : list Q;   (** [elevated] *)
  g_y0 : list Z;         (** [y] after rounding *)
  g_h : Z;               (** [h] after [h /= (pd + 1)] *)
  g_rank0 : list Z;      (** [rank] after the ranking loop *)
  g_y : list Z;          (** [y] after the rank correction *)
  g_rank : list Z;       (** [rank] after the rank correction *)
  g_bary : list Q        (** [bary] *)
}.

Definition splat_geometry (pd : nat) (sf pos : list Q) : geometry :=
  let e := elevate pd pos sf in
  let y0 := map (round_y pd) e in
  let h := wrap16 (Z.quot (remainder_sum y0) (Z.of_nat pd + 1)) in
  let rank0 := ranking pd (fun i => qnth e i - inject_Z (y0 !!! i))%Q in
  let '(y, rank) := rank_correction pd h y0 rank0 in
  {| g_elevated := e; g_y0 := y0; g_h := h; g_rank0 := rank0;
     g_y := y; g_rank := rank; g_bary := barycentric pd e y rank |}.

(** The key of corner [r]:
    [key[i] = y[i] + canonical[r * (pd + 1) + rank[i]]] for [i < pd]. *)
Definition corner_key (pd : nat) (canonical : list Z) (g : geometry) (r : nat) : list Z :=
  map (fun i => wrap16 (g_y g !!! i
         + znth canonical (Z.of_nat r * (Z.of_nat pd + 1) + g_rank g !!! i)))
    (seq 0 pd).

(* ------------------------------------------------------------------ *)
(** ** Permutations of [0 .. P-1] *)

Lemma NoDup_map_inj_in {A B} (f : A -> B) (l : list A) :
  (forall x y, In x l -> In y l -> f x = f y -> x = y) -> List.NoDup l -> List.NoDup (map f l).
Proof.
  intros Hinj Hnd. induction Hnd as [|a l Ha Hnd IH]; simpl; apply List.NoDup_cons || apply List.NoDup_nil.
  - intros Hin. apply in_map_iff in Hin as [b [Hfb Hb]].
    assert (b = a) by (apply Hinj; simpl; auto). subst. contradiction.
  - apply IH. intros x y Hx Hy. apply Hinj; simpl; auto.
Qed.

Lemma perm_of_range (l : list Z) (P : nat) :
  List.NoDup l -> Forall (fun z => 0 <= z < Z.of_nat P) l -> length l = P ->
  Permutation l (map Z.of_nat (seq 0 P)).
Proof.
  intros Hnd Hr Hl. apply NoDup_Permutation_bis; [exact Hnd| |].
  - rewrite length_map, length_seq. lia.
  - intros z Hz. rewrite List.Forall_forall in Hr. specialize (Hr z Hz).
    apply in_map_iff. exists (Z.to_nat z). split; [lia|]. apply in_seq. lia.
Qed.

(* ------------------------------------------------------------------ *)
(** ** The ranking loop computes, for every axis, how many axes beat it *)

Section Ranking.
Variable d : nat -> Q.

(** Axis [m] beats axis [k]: its remainder is larger, ties going to the
    smaller index. *)
Definition beats (m k : nat) : bool :=
  if (m <? k)%nat then Qle_bool (d k) (d m)
  else if (k <? m)%nat then negb (Qle_bool (d m) (d k))
  else false.

Definition rank_count (pd k : nat) : nat :=
  length (List.filter (fun m => beats m k) (seq 0 (pd + 1))).

Lemma beats_spec m k :
  beats m k = true <-> (d k < d m)%Q \/ ((d k == d m)%Q /\ (m < k)%nat).
Proof.
  unfold beats.
  destruct (Nat.ltb_spec m k); [|destruct (Nat.ltb_spec k m)].
  - rewrite Qle_bool_iff. split; [|intros [H'|[H' _]]; lra].
    intros Hle. apply Qle_lteq in Hle as [Hlt|Heq]; [left; exact Hlt|].
    right; split; [exact Heq | exact H].
  - rewrite negb_true_iff, <- not_true_iff_false, Qle_bool_iff.
    split; [intros Hn; left; lra|]. intros [Hl|[_ Hl]]; [lra|lia].
  - split; [discriminate|]. intros [Hl|[_ Hl]]; [|lia].
    assert (m = k) by lia. subst. lra.
Qed.

Lemma beats_irrefl k : beats k k = false.
Proof. unfold beats. rewrite Nat.ltb_irrefl. reflexivity. Qed.

Lemma beats_trans a b c : beats a b = true -> beats b c = true -> beats a c = true.
Proof.
  rewrite !beats_spec. intros [H1|[H1 H1']] [H2|[H2 H2']].
  - left; lra.
  - left; lra.
  - left; lra.
  - right; split; [lra|lia].
Qed.

Lemma beats_total a b : a <> b -> beats a b = true \/ beats b a = true.
Proof.
  intros Hne. rewrite !beats_spec.
  destruct (Qlt_le_dec (d b) (d a)) as [H|H]; [left; left; exact H|].
  apply Qle_lteq in H as [H|H]; [right; left; exact H|].
  destruct (Nat.lt_ge_cases a b); [left; right; split; [lra|lia]|].
  right; right; split; [lra|lia].
Qed.

Lemma filter_length_lt (p q : nat -> bool) (l : list nat) (x : nat) :
  (forall y, p y = true -> q y = true) -> In x l -> p x = false -> q x = true ->
  (length (List.filter p l) < length (List.filter q l))%nat.
Proof.
  intros Hpq. induction l as [|a l IH]; intros Hin Hp Hq; [destruct Hin|].
  simpl. destruct Hin as [Heq|Hin].
  - subst a. rewrite Hp, Hq. simpl.
    enough (length (List.filter p l) <= length (List.filter q l))%nat by lia.
    clear IH. induction l as [|b l IHl]; simpl; [lia|].
    destruct (p b) eqn:Hb; [rewrite (Hpq b Hb); simpl; lia|].
    destruct (q b); simpl; lia.
  - specialize (IH Hin Hp Hq).
    destruct (p a) eqn:Ha; [rewrite (Hpq a Ha); simpl; lia|].
    destruct (q a); simpl; lia.
Qed.

Lemma rank_count_lt pd k l :
  (l <= pd)%nat -> beats l k = true -> (rank_count pd l < rank_count pd k)%nat.
Proof.
  intros Hl Hb. unfold rank_count.
  apply (filter_length_lt _ _ _ l).
  - intros y Hy. exact (beats_trans _ _ _ Hy Hb).
  - apply in_seq. lia.
  - apply beats_irrefl.
  - exact Hb.
Qed.

Lemma rank_count_le pd k : (k <= pd)%nat -> (rank_count pd k <= pd)%nat.
Proof.
  intros Hk. unfold rank_count.
  pose proof (filter_length_lt (fun m => beats m k) (fun _ => true) (seq 0 (pd + 1)) k
                ltac:(reflexivity) ltac:(apply in_seq; lia) (beats_irrefl k) eq_refl) as H.
  rewrite filter_true, length_seq in H. lia.
Qed.

Lemma rank_count_inj pd k l :
  (k <= pd)%nat -> (l <= pd)%nat -> rank_count pd k = rank_count pd l -> k = l.
Proof.
  intros Hk Hl Heq. destruct (Nat.eq_dec k l) as [|Hne]; [assumption|].
  destruct (beats_total _ _ Hne) as [Hb|Hb].
  - pose proof (rank_count_lt pd l k Hk Hb). lia.
  - pose proof (rank_count_lt pd k l Hl Hb). lia.
Qed.

Lemma rank_count_perm pd :
  Permutation (map (fun k => Z.of_nat (rank_count pd k)) (seq 0 (pd + 1)))
              (map Z.of_nat (seq 0 (pd + 1))).
Proof.
  apply perm_of_range.
  - apply NoDup_map_inj_in; [|apply List.seq_NoDup].
    intros x y Hx Hy Heq. apply in_seq in Hx, Hy.
    apply (rank_count_inj pd); lia.
  - apply List.Forall_forall. intros z Hz. apply in_map_iff in Hz as [k [<- Hk]].
    apply in_seq in Hk. pose proof (rank_count_le pd k). lia.
  - rewrite length_map, length_seq. lia.
Qed.

Lemma filter_single (p : nat -> bool) k a n :
  length (List.filter (fun j => (j =? k)%nat && p j) (seq a n)) =
  if (a <=? k)%nat && (k <? a + n)%nat then (if p k then 1 else 0)%nat else 0%nat.
Proof.
  revert a. induction n as [|n IH]; intros a; cbn [seq List.filter].
  - destruct (Nat.leb_spec a k), (Nat.ltb_spec k (a + 0)); simpl; lia.
  - rewrite <- Nat.add_succ_comm.
    destruct (Nat.lt_total k a) as [Hlt|[Heq|Hgt]].
    + replace ((a =? k)%nat) with false by (symmetry; apply Nat.eqb_neq; lia).
      cbn [andb]. rewrite IH.
      destruct (Nat.leb_spec (S a) k), (Nat.leb_spec a k); simpl; try lia; reflexivity.
    + subst k. rewrite Nat.eqb_refl. cbn [andb].
      destruct (Nat.leb_spec (S a) a); [lia|].
      rewrite Nat.leb_refl.
      destruct (Nat.ltb_spec a (S a + n)); [|lia].
      destruct (p a); cbn [length]; rewrite IH;
        destruct (Nat.leb_spec (S a) a); try lia; reflexivity.
    + replace ((a =? k)%nat) with false by (symmetry; apply Nat.eqb_neq; lia).
      cbn [andb]. rewrite IH.
      destruct (Nat.leb_spec (S a) k), (Nat.leb_spec a k); simpl; try lia; reflexivity.
Qed.

Lemma rank_step_length rank i j : length (rank_step d rank i j) = length rank.
Proof. unfold rank_step. destruct (negb _); apply length_alter. Qed.

Lemma rank_inner_length m a n rank :
  length (fold_left (fun rank j => rank_step d rank m j) (seq a n) rank) = length rank.
Proof.
  revert a rank. induction n as [|n IH]; intros a rank; simpl; [reflexivity|].
  rewrite IH. apply rank_step_length.
Qed.

Lemma rank_inner m a n rank k v :
  (m < a)%nat -> (k < length rank)%nat -> rank !! k = Some (wrap16 v) ->
  fold_left (fun rank j => rank_step d rank m j) (seq a n) rank !! k =
  Some (wrap16 (v + Z.of_nat
    (if (k =? m)%nat
     then length (List.filter (fun j => negb (Qle_bool (d j) (d m))) (seq a n))
     else length (List.filter (fun j => (j =? k)%nat && Qle_bool (d j) (d m)) (seq a n))))).
Proof.
  revert a rank v. induction n as [|n IH]; intros a rank v Hma Hk Hv.
  - simpl. rewrite Hv. destruct (k =? m)%nat; simpl; rewrite Z.add_0_r; reflexivity.
  - cbn [seq fold_left].
    set (delta := if (k =? m)%nat
                  then (if negb (Qle_bool (d a) (d m)) then 1 else 0)%nat
                  else (if (a =? k)%nat && Qle_bool (d a) (d m) then 1 else 0)%nat).
    rewrite (IH (S a) _ (v + Z.of_nat delta)).
    + f_equal. f_equal. subst delta. simpl.
      destruct (Nat.eqb_spec k m); destruct (Qle_bool (d a) (d m)); simpl;
        try destruct (Nat.eqb_spec a k); simpl; lia.
    + lia.
    + rewrite rank_step_length. exact Hk.
    + unfold rank_step. subst delta.
      destruct (Qle_bool (d a) (d m)) eqn:Hq; simpl.
      * rewrite list_lookup_alter. case_decide as Hak.
        -- subst k. rewrite Hv. simpl.
           destruct (Nat.eqb_spec a m); [lia|]. rewrite Nat.eqb_refl. simpl.
           rewrite wrap16_add. reflexivity.
        -- rewrite Hv. destruct (Nat.eqb_spec k m);
             [|destruct (Nat.eqb_spec a k); [lia|]]; simpl; rewrite Z.add_0_r; reflexivity.
      * rewrite list_lookup_alter. case_decide as Hmk.
        -- subst k. rewrite Hv. simpl. rewrite Nat.eqb_refl. simpl.
           rewrite wrap16_add. reflexivity.
        -- rewrite Hv. destruct (Nat.eqb_spec k m); [lia|].
           rewrite andb_false_r. simpl. rewrite Z.add_0_r. reflexivity.
Qed.


(** How far axis [k] has been counted after the outer loop has run for
    [i < m]. *)
Definition ranked_upto (pd m k : nat) : nat :=
  (length (List.filter (fun i => Qle_bool (d k) (d i)) (seq 0 (Nat.min m k))) +
   (if (k <? m)%nat
    then length (List.filter (fun j => negb (Qle_bool (d j) (d k))) (seq (k + 1) (pd - k)))
    else 0))%nat.

Definition rank_outer (pd : nat) (rank : list Z) (i : nat) : list Z :=
  fold_left (fun rank j => rank_step d rank i j) (seq (i + 1) (pd - i)) rank.

Lemma ranking_prefix pd m :
  (m <= pd)%nat ->
  length (fold_left (rank_outer pd) (seq 0 m) (replicate (pd + 1) 0)) = (pd + 1)%nat /\
  forall k, (k <= pd)%nat ->
    fold_left (rank_outer pd) (seq 0 m) (replicate (pd + 1) 0) !! k =
    Some (wrap16 (Z.of_nat (ranked_upto pd m k))).
Proof.
  induction m as [|m IH]; intros Hm.
  - simpl. split; [rewrite length_replicate; reflexivity|].
    intros k Hk. rewrite lookup_replicate_2 by lia.
    unfold ranked_upto. rewrite Nat.min_0_l. simpl. reflexivity.
  - destruct IH as [Hlen IH]; [lia|].
    rewrite seq_S, Nat.add_0_l, fold_left_app. cbn [fold_left].
    set (X := fold_left (rank_outer pd) (seq 0 m) (replicate (pd + 1) 0)) in *.
    unfold rank_outer.
    split; [rewrite rank_inner_length; exact Hlen|].
    intros k Hk.
    rewrite (rank_inner m (m + 1) (pd - m) _ k (Z.of_nat (ranked_upto pd m k))); [|lia|lia|apply IH; lia].
    f_equal. f_equal. rewrite <- Nat2Z.inj_add. f_equal.
    unfold ranked_upto.
    destruct (Nat.eqb_spec k m) as [->|Hkm].
    + rewrite Nat.min_id, Nat.ltb_irrefl, Nat.add_0_r.
      rewrite (Nat.min_r (S m) m) by lia.
      destruct (Nat.ltb_spec m (S m)); [|lia]. reflexivity.
    + rewrite filter_single.
      destruct (Nat.lt_total k m) as [Hlt|[Heq|Hgt]]; [|lia|].
      * rewrite !Nat.min_r by lia.
        destruct (Nat.ltb_spec k m); [|lia]. destruct (Nat.ltb_spec k (S m)); [|lia].
        destruct (Nat.leb_spec (m + 1) k); [lia|]. simpl. lia.
      * rewrite (Nat.min_l m k), (Nat.min_l (S m) k) by lia.
        destruct (Nat.ltb_spec k m); [lia|]. destruct (Nat.ltb_spec k (S m)); [lia|].
        destruct (Nat.leb_spec (m + 1) k); [|lia].
        destruct (Nat.ltb_spec k (m + 1 + (pd - m))); [|lia]. cbn [andb].
        rewrite seq_S, Nat.add_0_l, List.filter_app, length_app. simpl.
        destruct (Qle_bool (d k) (d m)); simpl; lia.
Qed.

Lemma ranked_upto_full pd k :
  (k <= pd)%nat -> ranked_upto pd pd k = rank_count pd k.
Proof.
  intros Hk. unfold ranked_upto, rank_count.
  replace (pd + 1)%nat with (k + (1 + (pd - k)))%nat by lia.
  rewrite !seq_app, !List.filter_app, !length_app. cbn [seq List.filter].
  rewrite beats_irrefl, Nat.min_r by lia. cbn [length].
  rewrite ?Nat.add_0_l.
  rewrite (List.filter_ext_in (fun m => beats m k) (fun i => Qle_bool (d k) (d i)) (seq 0 k)).
  2: { intros i Hi. apply in_seq in Hi. unfold beats.
       destruct (Nat.ltb_spec i k); [reflexivity|lia]. }
  rewrite (List.filter_ext_in (fun m => beats m k) (fun j => negb (Qle_bool (d j) (d k))) (seq (k + 1) (pd - k))).
  2: { intros i Hi. apply in_seq in Hi. unfold beats.
       destruct (Nat.ltb_spec i k); [lia|]. destruct (Nat.ltb_spec k i); [reflexivity|lia]. }
  destruct (Nat.ltb_spec k pd); [lia|].
  replace (pd - k)%nat with 0%nat by lia. simpl. lia.
Qed.

Lemma ranking_spec pd :
  length (ranking pd d) = (pd + 1)%nat /\
  forall k, (k <= pd)%nat -> ranking pd d !! k = Some (wrap16 (Z.of_nat (rank_count pd k))).
Proof.
  destruct (ranking_prefix pd pd (Nat.le_refl _)) as [Hlen Hk].
  split; [exact Hlen|]. intros k Hkp. rewrite <- ranked_upto_full by exact Hkp.
  apply Hk. exact Hkp.
Qed.

End Ranking.

(* ------------------------------------------------------------------ *)
(** ** The elevated coordinates sum to zero *)

Definition Qsum (l : list Q) : Q := fold_right Qplus 0%Q l.

Lemma Qsum_app l1 l2 : (Qsum (l1 ++ l2) == Qsum l1 + Qsum l2)%Q.
Proof. induction l1 as [|a l IH]; simpl; [lra|]. rewrite IH. lra. Qed.

Lemma Qsum_map_ext {A} (f g : A -> Q) (l : list A) :
  (forall x, In x l -> f x == g x)%Q -> (Qsum (map f l) == Qsum (map g l))%Q.
Proof.
  induction l as [|a l IH]; intros Hfg; simpl; [reflexivity|].
  rewrite (Hfg a (or_introl eq_refl)), IH by (intros; apply Hfg; right; assumption).
  reflexivity.
Qed.

Lemma qnth_insert (l : list Q) (k m : nat) (v : Q) :
  (k < length l)%nat -> qnth (<[k := v]> l) m = if decide (m = k) then v else qnth l m.
Proof.
  intros Hk. unfold qnth. rewrite !nth_lookup, list_lookup_insert.
  case_decide; [rewrite decide_True by lia|rewrite decide_False by lia]; reflexivity.
Qed.

Section Elevation.
Variables (pos sf : list Q) (pd : nat).

(** The term [pos[i] * scaleFactor[i]] of the recurrence. *)
Definition scaled (i : nat) : Q := (qnth pos i * qnth sf i)%Q.

Definition tail_sum (m : nat) : Q := Qsum (map scaled (seq m (pd - m))).

(** Closed form of [elevated[m]]. *)
Definition elevated_cf (m : nat) : Q :=
  (tail_sum m - inject_Z (Z.of_nat m) * scaled (m - 1))%Q.

Lemma tail_sum_step m : (m < pd)%nat -> (tail_sum m == scaled m + tail_sum (S m))%Q.
Proof.
  intros Hm. unfold tail_sum.
  replace (pd - m)%nat with (S (pd - S m)) by lia. reflexivity.
Qed.

Lemma elevate_loop_spec (i : nat) (e : list Q) :
  (i < pd)%nat -> length e = (pd + 1)%nat ->
  (forall m, (i < m <= pd)%nat -> qnth e m == elevated_cf m)%Q ->
  length (elevate_loop pos sf i e) = (pd + 1)%nat /\
  (forall m, (1 <= m <= pd)%nat -> qnth (elevate_loop pos sf i e) m == elevated_cf m)%Q.
Proof.
  revert e. induction i as [|i IH]; intros e Hi Hlen He; cbn [elevate_loop].
  - split; [exact Hlen|]. intros m Hm. apply He. lia.
  - apply IH; [lia| rewrite length_insert; exact Hlen|].
    intros m Hm. rewrite qnth_insert by lia.
    case_decide as Hmi.
    + subst m. rewrite He by lia. unfold elevated_cf.
      rewrite (tail_sum_step (S i)) by lia.
      replace (S i + 1)%nat with (S (S i)) by lia.
      replace (S (S i) - 1)%nat with (S i) by lia.
      replace (S i - 1)%nat with i by lia.
      unfold scaled. rewrite !Nat2Z.inj_succ.
      unfold Z.succ. rewrite !inject_Z_plus. change (inject_Z 1) with 1%Q; change (inject_Z 2) with 2%Q. lra.
    + apply He. lia.
Qed.

Lemma elevate_spec :
  (1 <= pd)%nat ->
  length (elevate pd pos sf) = (pd + 1)%nat /\
  (forall m, (m <= pd)%nat -> qnth (elevate pd pos sf) m == elevated_cf m)%Q.
Proof.
  intros Hpd. unfold elevate.
  set (e1 := <[pd := _]> (replicate (pd + 1) 0%Q)).
  assert (Hl1 : length e1 = (pd + 1)%nat) by (subst e1; rewrite length_insert, length_replicate; reflexivity).
  destruct (elevate_loop_spec (pd - 1) e1) as [Hl2 He2]; [lia|exact Hl1| |].
  - intros m Hm. replace m with pd by lia. subst e1.
    rewrite qnth_insert by (rewrite length_replicate; lia). rewrite decide_True by reflexivity.
    unfold elevated_cf, tail_sum. rewrite Nat.sub_diag. simpl. unfold scaled. lra.
  - split; [rewrite length_insert; exact Hl2|].
    intros m Hm. rewrite qnth_insert by lia.
    case_decide as Hm0.
    + subst m. rewrite He2 by lia. unfold elevated_cf.
      rewrite (tail_sum_step 0) by lia. simpl (1 - 1)%nat. simpl (0 - 1)%nat.
      unfold scaled. change (inject_Z (Z.of_nat 1)) with 1%Q. change (inject_Z (Z.of_nat 0)) with 0%Q. lra.
    + apply He2. lia.
Qed.

(** [sum_{i=k}^{pd} elevated[i] = - k * sum_{j >= k-1} pos[j] * scaleFactor[j]]. *)
Lemma elevated_cf_tail k :
  (1 <= k <= pd)%nat ->
  (Qsum (map elevated_cf (seq k (pd + 1 - k))) ==
   - inject_Z (Z.of_nat k) * tail_sum (k - 1))%Q.
Proof.
  intros Hk. remember (pd + 1 - k)%nat as n eqn:Hn.
  revert k Hk Hn. induction n as [|n IH]; intros k Hk Hn; [lia|].
  cbn [seq map Qsum fold_right]. fold (Qsum (map elevated_cf (seq (S k) n))).
  destruct (Nat.eq_dec k pd) as [->|Hkp].
  - replace n with 0%nat by lia. simpl. unfold elevated_cf.
    rewrite (tail_sum_step (pd - 1)) by lia.
    replace (S (pd - 1)) with pd by lia. unfold tail_sum. rewrite Nat.sub_diag. simpl. lra.
  - rewrite (IH (S k)) by lia. replace (S k - 1)%nat with k by lia.
    unfold elevated_cf.
    rewrite (tail_sum_step (k - 1)) by lia. replace (S (k - 1)) with k by lia.
    rewrite Nat2Z.inj_succ. unfold Z.succ. rewrite inject_Z_plus.
    change (inject_Z 1) with 1%Q; change (inject_Z 2) with 2%Q. lra.
Qed.

Lemma elevated_cf_sum :
  (1 <= pd)%nat -> (Qsum (map elevated_cf (seq 0 (pd + 1))) == 0)%Q.
Proof.
  intros Hpd. replace (pd + 1)%nat with (S (pd + 1 - 1)) by lia.
  cbn [seq map Qsum fold_right]. fold (Qsum (map elevated_cf (seq 1 (pd + 1 - 1)))).
  rewrite elevated_cf_tail by lia. unfold elevated_cf. simpl (1 - 1)%nat.
  change (inject_Z (Z.of_nat 1)) with 1%Q. change (inject_Z (Z.of_nat 0)) with 0%Q. lra.
Qed.

End Elevation.

Lemma elevate_sum pd pos sf :
  (1 <= pd)%nat ->
  (Qsum (map (qnth (elevate pd pos sf)) (seq 0 (pd + 1))) == 0)%Q.
Proof.
  intros Hpd. destruct (elevate_spec pos sf pd Hpd) as [_ He].
  rewrite (Qsum_map_ext _ (elevated_cf pos sf pd)).
  - apply elevated_cf_sum. exact Hpd.
  - intros m Hm. apply in_seq in Hm. apply He. lia.
Qed.

(* ------------------------------------------------------------------ *)
(** ** The remainder [h] of the rounded coordinates *)

Lemma c_round_err q : (- (1 # 2) <= inject_Z (c_round q) - q <= 1 # 2)%Q.
Proof.
  unfold c_round. destruct (Qle_bool 0 q) eqn:Hq.
  - pose proof (Qfloor_le (q + (1 # 2))). pose proof (Qlt_floor (q + (1 # 2))).
    rewrite inject_Z_plus in *. change (inject_Z 1) with 1%Q in *. split; lra.
  - pose proof (Qfloor_le (- q + (1 # 2))). pose proof (Qlt_floor (- q + (1 # 2))).
    rewrite inject_Z_opp. rewrite inject_Z_plus in *. change (inject_Z 1) with 1%Q in *.
    split; lra.
Qed.

Lemma c_round_sum_err (xs : list Q) :
  (- (inject_Z (Z.of_nat (length xs)) * (1 # 2)) <=
     inject_Z (Zsum (map c_round xs)) - Qsum xs <=
   inject_Z (Z.of_nat (length xs)) * (1 # 2))%Q.
Proof.
  induction xs as [|x xs IH]; cbn [map Zsum Qsum fold_right length].
  - change (inject_Z (Z.of_nat 0)) with 0%Q. change (inject_Z 0) with 0%Q. split; lra.
  - fold (Zsum (map c_round xs)) (Qsum xs). pose proof (c_round_err x).
    rewrite Nat2Z.inj_succ. unfold Z.succ. rewrite !inject_Z_plus.
    change (inject_Z 1) with 1%Q. split; lra.
Qed.

Lemma Qsum_map_scale {A} (f : A -> Q) (c : Q) (l : list A) :
  (Qsum (map (fun x => f x * c) l) == Qsum (map f l) * c)%Q.
Proof.
  unfold Qsum. induction l as [|a l IH]; cbn [map fold_right]; [ring|].
  rewrite IH. ring.
Qed.

(** The rounded coordinates of a zero-sum vector of [P] entries sum to at
    most [P/2] in absolute value. *)
Lemma rounded_sum_bound (e : list Q) (pd : nat) :
  (Qsum (map (qnth e) (seq 0 (pd + 1))) == 0)%Q ->
  2 * Z.abs (Zsum (map (fun i => c_round (qnth e i / inject_Z (Z.of_nat pd + 1)))
                    (seq 0 (pd + 1)))) <= Z.of_nat pd + 1.
Proof.
  intros Hsum.
  set (P := inject_Z (Z.of_nat pd + 1)).
  assert (HP : (0 < P)%Q) by (unfold P; rewrite <- inject_Z_0 at 1 ||
                                 change 0%Q with (inject_Z 0); rewrite <- Zlt_Qlt; lia).
  pose proof (c_round_sum_err (map (fun i => qnth e i / P) (seq 0 (pd + 1)))%Q) as H.
  rewrite map_map, length_map, length_seq in H.
  assert (Hx : (Qsum (map (fun i => qnth e i / P) (seq 0 (pd + 1))) == 0)%Q).
  { unfold Qdiv. rewrite (Qsum_map_scale (qnth e)). rewrite Hsum. ring. }
  rewrite Hx in H.
  set (C := Zsum _) in *.
  assert (HP' : inject_Z (Z.of_nat (pd + 1)) = P) by (unfold P; rewrite Nat2Z.inj_add; reflexivity).
  rewrite HP' in H.
  assert (H1 : (inject_Z (2 * C) <= inject_Z (Z.of_nat pd + 1))%Q).
  { rewrite inject_Z_mult. fold P. change (inject_Z 2) with 2%Q. lra. }
  assert (H2 : (inject_Z (- (2 * C)) <= inject_Z (Z.of_nat pd + 1))%Q).
  { rewrite inject_Z_opp, inject_Z_mult. fold P. change (inject_Z 2) with 2%Q. lra. }
  rewrite <- Zle_Qle in H1, H2. lia.
Qed.

Lemma remainder_sum_spec (ys : list Z) :
  remainder_sum ys = wrap16 (Zsum ys) \/ ys = [].
Proof.
  unfold remainder_sum.
  assert (Hgen : forall h0, in_i16 h0 -> ys <> [] ->
            fold_left (fun h yi => wrap16 (h + yi)) ys h0 = wrap16 (h0 + Zsum ys)).
  { induction ys as [|y ys IH]; intros h0 Hh0 Hne; [congruence|].
    cbn [fold_left Zsum fold_right]. fold (Zsum ys).
    destruct ys as [|y' ys'].
    - simpl. rewrite Z.add_0_r. reflexivity.
    - rewrite IH by (try apply wrap16_range; congruence).
      rewrite wrap16_add. f_equal. lia. }
  destruct ys as [|y ys]; [right; reflexivity|left].
  rewrite Hgen by (unfold in_i16; lia || congruence). reflexivity.
Qed.

Lemma wrap16_sum (l : list Z) : wrap16 (Zsum (map wrap16 l)) = wrap16 (Zsum l).
Proof.
  induction l as [|a l IH]; cbn [map Zsum fold_right]; [reflexivity|].
  fold (Zsum (map wrap16 l)) (Zsum l).
  rewrite wrap16_add, (Z.add_comm a), <- wrap16_add, IH, wrap16_add.
  f_equal. lia.
Qed.

Lemma qnth_seq (l : list Q) : map (qnth l) (seq 0 (length l)) = l.
Proof.
  induction l as [|a l IH]; [reflexivity|].
  cbn [length seq map]. rewrite <- seq_shift, map_map. f_equal. exact IH.
Qed.

Lemma Zsum_map_mul {A} (f : A -> Z) (c : Z) (l : list A) :
  Zsum (map (fun x => f x * c) l) = Zsum (map f l) * c.
Proof. unfold Zsum. induction l as [|a l IH]; simpl; [reflexivity|]. rewrite IH. lia. Qed.

Lemma map_lookup {A B} (f : A -> B) (l : list A) (k : nat) :
  map f l !! k = f <$> l !! k.
Proof. revert k. induction l as [|a l IH]; intros [|k]; simpl; auto. Qed.

Lemma splat_geometry_h pd sf pos :
  g_h (splat_geometry pd sf pos) =
  wrap16 (Z.quot (remainder_sum (map (round_y pd) (elevate pd pos sf))) (Z.of_nat pd + 1)).
Proof. unfold splat_geometry. cbn zeta. destruct (rank_correction _ _ _ _). reflexivity. Qed.

Lemma splat_geometry_y0 pd sf pos :
  g_y0 (splat_geometry pd sf pos) = map (round_y pd) (elevate pd pos sf).
Proof. unfold splat_geometry. cbn zeta. destruct (rank_correction _ _ _ _). reflexivity. Qed.

Lemma splat_geometry_rank0 pd sf pos :
  g_rank0 (splat_geometry pd sf pos) =
  ranking pd (fun i => qnth (elevate pd pos sf) i -
                       inject_Z (map (round_y pd) (elevate pd pos sf) !!! i))%Q.
Proof. unfold splat_geometry. cbn zeta. destruct (rank_correction _ _ _ _). reflexivity. Qed.

Lemma splat_geometry_rank pd sf pos :
  let g := splat_geometry pd sf pos in
  g_y g = fst (rank_correction pd (g_h g) (g_y0 g) (g_rank0 g)) /\
  g_rank g = snd (rank_correction pd (g_h g) (g_y0 g) (g_rank0 g)).
Proof.
  unfold splat_geometry. cbn zeta.
  destruct (rank_correction _ _ _ _) as [y r] eqn:E.
  cbn [g_y g_rank g_h g_y0 g_rank0]. rewrite E. split; reflexivity.
Qed.

(** When every rounded coordinate fits [int16_t], the remainder satisfies
    [2 * |h| <= pd + 1]. *)
Lemma splat_h_bound pd sf pos :
  (1 <= pd)%nat -> Z.of_nat pd <= 32767 ->
  (forall i, (i <= pd)%nat ->
     in_i16 (c_round (qnth (elevate pd pos sf) i / inject_Z (Z.of_nat pd + 1)))) ->
  2 * Z.abs (g_h (splat_geometry pd sf pos)) <= Z.of_nat pd + 1.
Proof.
  intros Hpd1 Hpd Hround. rewrite splat_geometry_h.
  set (e := elevate pd pos sf) in *.
  set (P := Z.of_nat pd + 1).
  destruct (elevate_spec pos sf pd Hpd1) as [Hlen _]. fold e in Hlen.
  set (c := fun x => c_round (x / inject_Z P)).
  set (C := Zsum (map (fun i => c (qnth e i)) (seq 0 (pd + 1)))).
  assert (HC : 2 * Z.abs C <= P).
  { apply rounded_sum_bound. pose proof (elevate_sum pd pos sf Hpd1) as Hs. exact Hs. }
  assert (Hsum : remainder_sum (map (round_y pd) e) = wrap16 (C * P)).
  { destruct (remainder_sum_spec (map (round_y pd) e)) as [->|Hnil].
    2: { apply (f_equal length) in Hnil. rewrite length_map in Hnil. simpl in Hnil. lia. }
    rewrite <- (qnth_seq e), Hlen, map_map.
    rewrite <- (map_map (fun i => cvt_s16 (c (qnth e i)) * P) wrap16).
    rewrite wrap16_sum. f_equal. unfold C.
    rewrite <- Zsum_map_mul. f_equal. apply map_ext_in.
    intros i Hi. apply in_seq in Hi. rewrite cvt_s16_id by (apply Hround; lia). reflexivity. }
  rewrite Hsum.
  assert (HP : 0 < P) by lia.
  assert (Hq : Z.abs (Z.quot (wrap16 (C * P)) P) <= Z.abs C).
  { rewrite <- Z.quot_abs by lia. rewrite (Z.abs_eq P) by lia.
    rewrite <- (Z.quot_mul (Z.abs C) P) by lia.
    apply Z.quot_le_mono; [lia|].
    pose proof (wrap16_abs (C * P)). rewrite Z.abs_mul, (Z.abs_eq P) in H by lia. lia. }
  rewrite wrap16_id by (unfold in_i16; lia). lia.
Qed.

Lemma correct_pos_snd P h yi ri :
  0 < h <= P -> P <= 32768 -> 0 <= ri < P -> snd (correct_pos P h yi ri) = (ri + h) mod P.
Proof.
  intros Hh HP Hr. unfold correct_pos. destruct (Z.leb_spec (P - h) ri); simpl.
  - rewrite wrap16_id by (unfold in_i16; lia).
    apply (Z.mod_unique _ _ 1); lia.
  - rewrite wrap16_id by (unfold in_i16; lia).
    apply (Z.mod_unique _ _ 0); lia.
Qed.

Lemma correct_neg_snd P h yi ri :
  - P <= h < 0 -> P <= 32768 -> 0 <= ri < P -> snd (correct_neg P h yi ri) = (ri + h) mod P.
Proof.
  intros Hh HP Hr. unfold correct_neg. destruct (Z.ltb_spec ri (- h)); simpl.
  - rewrite wrap16_id by (unfold in_i16; lia).
    apply (Z.mod_unique _ _ (-1)); lia.
  - rewrite wrap16_id by (unfold in_i16; lia).
    apply (Z.mod_unique _ _ 0); lia.
Qed.

(** The correction rotates every rank by [h] modulo [pd + 1]. *)
Lemma rank_correction_rank pd h (y rank : list Z) :
  Z.of_nat pd <= 32767 -> Z.abs h <= Z.of_nat pd + 1 ->
  length y = (pd + 1)%nat -> length rank = (pd + 1)%nat ->
  (forall k r, rank !! k = Some r -> 0 <= r <= Z.of_nat pd) ->
  length (snd (rank_correction pd h y rank)) = (pd + 1)%nat /\
  forall k r, rank !! k = Some r ->
    snd (rank_correction pd h y rank) !! k = Some ((r + h) mod (Z.of_nat pd + 1)).
Proof.
  intros Hpd Hh Hly Hlr Hr. unfold rank_correction.
  destruct (Z.ltb_spec 0 h); [|destruct (Z.ltb_spec h 0)]; cbn [snd].
  - split; [rewrite length_map, length_zip_with; lia|].
    intros k r Hk. rewrite map_lookup, lookup_zip_with, Hk.
    destruct (y !! k) as [yk|] eqn:Hy; [|apply lookup_ge_None in Hy; apply lookup_lt_Some in Hk; lia].
    simpl. rewrite correct_pos_snd; [reflexivity|lia|lia|]. specialize (Hr k r Hk). lia.
  - split; [rewrite length_map, length_zip_with; lia|].
    intros k r Hk. rewrite map_lookup, lookup_zip_with, Hk.
    destruct (y !! k) as [yk|] eqn:Hy; [|apply lookup_ge_None in Hy; apply lookup_lt_Some in Hk; lia].
    simpl. rewrite correct_neg_snd; [reflexivity|lia|lia|]. specialize (Hr k r Hk). lia.
  - split; [exact Hlr|]. intros k r Hk. rewrite Hk. f_equal.
    replace h with 0 by lia. rewrite Z.add_0_r. symmetry. apply Z.mod_small.
    specialize (Hr k r Hk). lia.
Qed.

(* ------------------------------------------------------------------ *)
(** ** The barycentric weights *)

Lemma qnth_alter (f : Q -> Q) (l : list Q) (n m : nat) :
  (n < length l)%nat -> qnth (alter f n l) m = if decide (m = n) then f (qnth l m) else qnth l m.
Proof.
  intros Hn. unfold qnth. rewrite !nth_lookup.
  destruct (decide (m = n)) as [->|Hmn].
  - rewrite list_lookup_alter_eq.
    destruct (l !! n) eqn:E; [reflexivity|apply lookup_ge_None in E; lia].
  - rewrite list_lookup_alter_ne by congruence. reflexivity.
Qed.

Lemma Qsum_alter (f : Q -> Q) (l : list Q) (n : nat) :
  (n < length l)%nat -> (Qsum (alter f n l) == Qsum l - qnth l n + f (qnth l n))%Q.
Proof.
  unfold Qsum, qnth. revert n. induction l as [|a l IH]; intros [|n] Hn;
    cbn [length] in Hn; try lia; cbn [alter list_alter fold_right nth].
  - lra.
  - rewrite IH by lia. lra.
Qed.

Lemma zalter_length f k l : length (zalter f k l) = length l.
Proof. unfold zalter. destruct (_ && _); [apply length_alter|reflexivity]. Qed.

Lemma Qsum_zalter_add (d : Q) (k : Z) (l : list Q) :
  0 <= k < Z.of_nat (length l) -> (Qsum (zalter (fun v => v + d) k l) == Qsum l + d)%Q.
Proof.
  intros Hk. unfold zalter.
  destruct (Z.leb_spec 0 k), (Z.ltb_spec k (Z.of_nat (length l))); try lia; simpl.
  rewrite Qsum_alter by lia. lra.
Qed.

Lemma Qsum_zalter_sub (d : Q) (k : Z) (l : list Q) :
  0 <= k < Z.of_nat (length l) -> (Qsum (zalter (fun v => v - d) k l) == Qsum l - d)%Q.
Proof.
  intros Hk. unfold zalter.
  destruct (Z.leb_spec 0 k), (Z.ltb_spec k (Z.of_nat (length l))); try lia; simpl.
  rewrite Qsum_alter by lia. lra.
Qed.

Lemma Qsum_seq_qnth (l : list Q) :
  (Qsum l == Qsum (map (qnth l) (seq 0 (length l))))%Q.
Proof. rewrite qnth_seq. reflexivity. Qed.

(** With every rank in [0, pd], the weights [bary[0..pd]] sum to one. *)
Lemma barycentric_sum pd e (y rank : list Z) :
  (forall i, (i <= pd)%nat -> 0 <= rank !!! i <= Z.of_nat pd) ->
  length (barycentric pd e y rank) = (pd + 2)%nat /\
  (Qsum (map (qnth (barycentric pd e y rank)) (seq 0 (pd + 1))) == 1)%Q.
Proof.
  intros Hr. unfold barycentric. cbn zeta.
  set (step := fun (b : list Q) (i : nat) => _).
  assert (Hloop : forall (l : list nat) (b : list Q),
            (forall i, In i l -> (i <= pd)%nat) ->
            length b = (pd + 2)%nat -> (Qsum b == 0)%Q ->
            length (fold_left step l b) = (pd + 2)%nat /\ (Qsum (fold_left step l b) == 0)%Q).
  { induction l as [|i l IH]; intros b Hl Hlen Hs; simpl; [split; assumption|].
    specialize (Hr i (Hl i (or_introl eq_refl))).
    apply IH; [intros; apply Hl; right; assumption| |].
    - subst step. cbn beta. rewrite !zalter_length. exact Hlen.
    - subst step. cbn beta.
      rewrite Qsum_zalter_sub by (rewrite zalter_length, Hlen; lia).
      rewrite Qsum_zalter_add by (rewrite Hlen; lia). lra. }
  destruct (Hloop (seq 0 (pd + 1)) (replicate (pd + 2) 0%Q)) as [Hlen Hs].
  - intros i Hi. apply in_seq in Hi. lia.
  - apply length_replicate.
  - clear. unfold Qsum. induction (pd + 2)%nat as [|n IH]; simpl; [reflexivity|]. rewrite IH. reflexivity.
  - set (b := fold_left step _ _) in *.
    split; [rewrite zalter_length; exact Hlen|].
    set (b' := zalter _ 0 b).
    assert (Hl' : length b' = (pd + 2)%nat) by (subst b'; rewrite zalter_length; exact Hlen).
    pose proof (Qsum_zalter_add (1 + qnth b (pd + 1)) 0 b ltac:(rewrite Hlen; lia)) as Hb'.
    fold b' in Hb'. rewrite Hs in Hb'.
    assert (Hlast : qnth b' (pd + 1) = qnth b (pd + 1)).
    { subst b'. unfold zalter. rewrite Hlen.
      destruct (Z.leb_spec 0 0), (Z.ltb_spec 0 (Z.of_nat (pd + 2))); try lia; simpl.
      rewrite qnth_alter by lia. rewrite decide_False by lia. reflexivity. }
    rewrite Qsum_seq_qnth, Hl' in Hb'.
    replace (pd + 2)%nat with (S (pd + 1)) in Hb' by lia.
    rewrite seq_S, map_app, Qsum_app in Hb'. simpl in Hb'. rewrite Hlast in Hb'. lra.
Qed.

(* ------------------------------------------------------------------ *)
(** ** Ranks of a point *)

(** Every rounded coordinate [round(elevated[i] / (pd + 1))] fits
    [int16_t], so that the cast to [int16_t] keeps it. *)
Definition rounded_fits (pd : nat) (sf pos : list Q) : bool :=
  forallb (fun i =>
      let c := c_round (qnth (elevate pd pos sf) i / inject_Z (Z.of_nat pd + 1)) in
      (-32768 <=? c) && (c <=? 32767))
    (seq 0 (pd + 1)).

Lemma rounded_fits_spec pd sf pos :
  rounded_fits pd sf pos = true ->
  forall i, (i <= pd)%nat ->
    in_i16 (c_round (qnth (elevate pd pos sf) i / inject_Z (Z.of_nat pd + 1))).
Proof.
  unfold rounded_fits. rewrite forallb_forall. intros H i Hi.
  specialize (H i ltac:(apply in_seq; lia)). cbn zeta in H.
  apply andb_true_iff in H as [H1 H2]. apply Z.leb_le in H1, H2. split; assumption.
Qed.

Lemma splat_geometry_bary pd sf pos :
  let g := splat_geometry pd sf pos in
  g_bary g = barycentric pd (elevate pd pos sf) (g_y g) (g_rank g).
Proof.
  unfold splat_geometry. cbn zeta.
  destruct (rank_correction _ _ _ _) as [y r]. reflexivity.
Qed.

Lemma mod_add_inj P h a b :
  0 < P -> 0 <= a < P -> 0 <= b < P -> (a + h) mod P = (b + h) mod P -> a = b.
Proof.
  intros HP Ha Hb Heq.
  assert (Ea : ((a + h) mod P - h) mod P = a).
  { rewrite Zminus_mod_idemp_l. replace (a + h - h) with a by lia. apply Z.mod_small. lia. }
  assert (Eb : ((b + h) mod P - h) mod P = b).
  { rewrite Zminus_mod_idemp_l. replace (b + h - h) with b by lia. apply Z.mod_small. lia. }
  rewrite <- Ea, <- Eb, Heq. reflexivity.
Qed.

Lemma list_eq_seq (l : list Z) (f : nat -> Z) (n : nat) :
  length l = n -> (forall k, (k < n)%nat -> l !! k = Some (f k)) -> l = map f (seq 0 n).
Proof.
  intros Hlen Hk. apply list_eq. intros i.
  rewrite map_lookup. destruct (decide (i < n)%nat) as [Hi|Hi].
  - rewrite Hk by exact Hi. rewrite lookup_seq_lt by exact Hi. reflexivity.
  - rewrite (proj2 (lookup_ge_None l i)) by lia.
    rewrite (proj2 (lookup_ge_None (seq 0 n) i)) by (rewrite length_seq; lia). reflexivity.
Qed.

(** The rank rows of a point, before and after the correction, in closed
    form. *)
Lemma splat_rank_closed pd sf pos :
  (1 <= pd)%nat -> Z.of_nat pd <= 32767 -> rounded_fits pd sf pos = true ->
  let g := splat_geometry pd sf pos in
  let d := (fun i => qnth (elevate pd pos sf) i -
                     inject_Z (map (round_y pd) (elevate pd pos sf) !!! i))%Q in
  g_rank0 g = map (fun k => Z.of_nat (rank_count d pd k)) (seq 0 (pd + 1)) /\
  g_rank g = map (fun k => (Z.of_nat (rank_count d pd k) + g_h g) mod (Z.of_nat pd + 1))
               (seq 0 (pd + 1)) /\
  2 * Z.abs (g_h g) <= Z.of_nat pd + 1.
Proof.
  intros Hpd1 Hpd Hfit g d.
  pose proof (splat_h_bound pd sf pos Hpd1 Hpd (rounded_fits_spec _ _ _ Hfit)) as Hh.
  destruct (ranking_spec d pd) as [Hl0 Hk0].
  assert (Hr0 : g_rank0 g = map (fun k => Z.of_nat (rank_count d pd k)) (seq 0 (pd + 1))).
  { unfold g. rewrite splat_geometry_rank0. fold d.
    apply list_eq_seq; [exact Hl0|]. intros k Hk. rewrite Hk0 by lia.
    rewrite wrap16_id; [reflexivity|].
    pose proof (rank_count_le d pd k ltac:(lia)). unfold in_i16. lia. }
  fold g in Hh. split; [exact Hr0|]. split; [|exact Hh].
  destruct (splat_geometry_rank pd sf pos) as [_ Hr]. fold g in Hr. rewrite Hr.
  assert (Hy0 : length (g_y0 g) = (pd + 1)%nat).
  { unfold g. rewrite splat_geometry_y0, length_map. apply elevate_spec. exact Hpd1. }
  destruct (rank_correction_rank pd (g_h g) (g_y0 g) (g_rank0 g)) as [Hl Hk];
    [lia|lia|exact Hy0| rewrite Hr0, length_map, length_seq; reflexivity| |].
  - intros k r Hkr. rewrite Hr0, map_lookup in Hkr.
    destruct (seq 0 (pd + 1) !! k) as [k'|] eqn:E; [|discriminate].
    injection Hkr as <-. apply lookup_seq in E as [-> Hk']. rewrite Nat.add_0_l.
    pose proof (rank_count_le d pd k ltac:(lia)). lia.
  - apply list_eq_seq; [exact Hl|]. intros k Hk'.
    apply Hk. rewrite Hr0, map_lookup, lookup_seq_lt by exact Hk'. reflexivity.
Qed.

Lemma canonical_table_length pd : length (canonical_table pd) = ((pd + 1) * (pd + 1))%nat.
Proof.
  unfold canonical_table.
  rewrite <- (length_replicate ((pd + 1) * (pd + 1))%nat (0:Z)) at 2.
  generalize (replicate ((pd + 1) * (pd + 1))%nat (0:Z)).
  induction (seq 0 (pd + 1)) as [|x l IHl]; intros c'; simpl; [reflexivity|].
  rewrite IHl, canonical_row_length. reflexivity.
Qed.

(** The point used by the counterexamples of the geometry claims: [pd = 2],
    the constructor's scale factors, and a second coordinate large enough
    for [round(elevated[i] / 3)] to leave the [int16_t] range. *)
Definition far_sf : list Q := lattice_scale_factors libm_sqrt 2.
Definition far_pos : list Q := [0%Q; 49161%Q].

(** A point whose rounded coordinates fit. *)
Definition near_pos : list Q := [1 # 2; 3 # 4]%Q.

(* ------------------------------------------------------------------ *)
(** ** Device results

    A kernel thread either finishes, stays in a loop forever, or makes an
    access outside the row or buffer it addresses, or an [int] operation
    that overflows; the embedding does not follow the program past such an
    operation. *)
Inductive kres (A : Type) : Type :=
| KOk (a : A)
| KDiverge
| KUndef.
Arguments KOk {A} a.
Arguments KDiverge {A}.
Arguments KUndef {A}.

Global Instance kres_ret : MRet kres := fun A a => KOk a.
Global Instance kres_bind : MBind kres := fun A B f m =>
  match m with KOk a => f a | KDiverge => KDiverge | KUndef => KUndef end.

(** A [for] loop over [l] whose body may fail. *)
Fixpoint kfold {A B} (f : A -> B -> kres A) (l : list B) (a : A) : kres A :=
  match l with
  | [] => KOk a
  | x :: l' => a' ← f a x; kfold f l' a'
  end.

(** [INT_MAX] for the 32-bit [int] of the device and the host. *)
Definition INT_MAX : Z := 2147483647.

Definition int_fits (z : Z) : bool := (- INT_MAX - 1 <=? z) && (z <=? INT_MAX).

(** The result of an [int] operation: a signed overflow is not defined. *)
Definition int_res (z : Z) : kres Z := if int_fits z then KOk z else KUndef.

(** Conversion of a [size_t] to an [int] parameter (two's complement wrap). *)
Definition to_int (n : nat) : Z := (Z.of_nat n + 2 ^ 31) mod 2 ^ 32 - 2 ^ 31.

(** [p[k]]: a read of cell [k] of a buffer; outside it, no access is defined. *)
Definition read_at {A} (l : list A) (k : Z) : kres A :=
  if 0 <=? k then
    match l !! Z.to_nat k with Some x => KOk x | None => KUndef end
  else KUndef.

(** [p[k] = x]. *)
Definition write_at {A} (l : list A) (k : Z) (x : A) : kres (list A) :=
  if (0 <=? k) && (k <? Z.of_nat (length l)) then KOk (<[Z.to_nat k := x]> l) else KUndef.

(** A read-modify-write of cell [k], such as [p[k] += v]. *)
Definition update_at {A} (f : A -> A) (l : list A) (k : Z) : kres (list A) :=
  x ← read_at l k; write_at l k (f x).

(* ------------------------------------------------------------------ *)
(** ** Tensors *)

(** A two-dimensional tensor, row-major. *)
Record tensor := { t_rows : nat; t_cols : nat; t_data : list Q }.

Definition well_formed (t : tensor) : Prop := length (t_data t) = (t_rows t * t_cols t)%nat.

(** [t[n]] through a packed accessor. *)
Definition t_row (t : tensor) (n : nat) : kres (list Q) :=
  if decide (n < t_rows t)%nat
  then KOk (take (t_cols t) (drop (n * t_cols t) (t_data t))) else KUndef.

(** [torch::zeros_like(t)]. *)
Definition zeros_like (t : tensor) : tensor :=
  {| t_rows := t_rows t; t_cols := t_cols t;
     t_data := replicate (t_rows t * t_cols t) 0%Q |}.

(** Conversion of a tensor size to [uint16_t]. *)
Definition u16 (n : nat) : nat := Z.to_nat (Z.of_nat n mod 65536).

(* ------------------------------------------------------------------ *)
(** ** [HashTableGPU] *)

Record hash_table := {
  ht_pd : nat;
  ht_vd : nat;
  ht_N : nat;
  ht_capacity : nat;
  ht_keys : list Z;         (** [keys], [capacity * pd] entries *)
  ht_values : list Q;       (** [values], [capacity * vd] entries *)
  ht_entry2nid : list Z     (** [entry2nid], [capacity] entries *)
}.

Definition with_keys (t : hash_table) (ks : list Z) : hash_table :=
  {| ht_pd := ht_pd t; ht_vd := ht_vd t; ht_N := ht_N t; ht_capacity := ht_capacity t;
     ht_keys := ks; ht_values := ht_values t; ht_entry2nid := ht_entry2nid t |}.
Definition with_values (t : hash_table) (vs : list Q) : hash_table :=
  {| ht_pd := ht_pd t; ht_vd := ht_vd t; ht_N := ht_N t; ht_capacity := ht_capacity t;
     ht_keys := ht_keys t; ht_values := vs; ht_entry2nid := ht_entry2nid t |}.
Definition with_entry2nid (t : hash_table) (es : list Z) : hash_table :=
  {| ht_pd := ht_pd t; ht_vd := ht_vd t; ht_N := ht_N t; ht_capacity := ht_capacity t;
     ht_keys := ht_keys t; ht_values := ht_values t; ht_entry2nid := es |}.

(** The constructor once its allocations succeeded: [values] zeroed,
    [entry2nid] filled with [-1].  [keys] is not initialised; it is only
    read at entries published by [insert], and is modelled as zeros. *)
Definition HashTableGPU (pd vd N : nat) : hash_table :=
  let capacity := (N * (pd + 1))%nat in
  {| ht_pd := pd; ht_vd := vd; ht_N := N; ht_capacity := capacity;
     ht_keys := replicate (capacity * pd) 0;
     ht_values := replicate (capacity * vd) 0%Q;
     ht_entry2nid := replicate capacity (-1) |}.

(** [~HashTableGPU]: [cudaFree] of [keys], [values] and [entry2nid].  The
    fields keep their values; no cell of the three buffers is accessible
    any more. *)
Definition free_table (t : hash_table) : hash_table :=
  {| ht_pd := ht_pd t; ht_vd := ht_vd t; ht_N := ht_N t; ht_capacity := ht_capacity t;
     ht_keys := []; ht_values := []; ht_entry2nid := [] |}.

(**
<<
    size_t k = 0;
    for (uint16_t i = 0; i < pd; ++i) {
      k += static_cast<size_t>(key[i]);
      k *= static_cast<size_t>(2531011);
    }
>> *)
Definition hash (pd : nat) (key : list Z) : Z :=
  fold_left (fun k i =>
      let k := wrap64 (k + wrap64 (key !!! i)) in wrap64 (k * 2531011))
    (seq 0 pd) 0.

(** [for (uint16_t i = 0; i < pd; ++i) keys[nid * pd + i] = key[i];] where
    [nid * pd + i] is computed in [int]. *)
Definition write_key (pd : nat) (nid : Z) (key : list Z) (ks : list Z) : kres (list Z) :=
  kfold (fun (ks : list Z) (i : nat) =>
      k ← int_res (nid * Z.of_nat pd);
      k ← int_res (k + Z.of_nat i);
      write_at ks k (key !!! i))
    (seq 0 pd) ks.

(**
<<
    bool match = true;
    for (uint16_t i = 0; i < pd && match; ++i)
      match = keys[cas * pd + i] == key[i];
>>
    with [cas * pd + i] computed in [int]. *)
Definition key_matches (t : hash_table) (cas : Z) (key : list Z) : kres bool :=
  kfold (fun (m : bool) (i : nat) =>
      if m then
        (k ← int_res (cas * Z.of_nat (ht_pd t));
         k ← int_res (k + Z.of_nat i);
         v ← read_at (ht_keys t) k;
         mret (bool_decide (v = key !!! i)))
      else mret false)
    (seq 0 (ht_pd t)) true.

(** The probing loop of [insert], for a thread that runs alone.  After
    [capacity] probes without a free bucket or an equal key it has seen
    every bucket, the table no longer changes, and the [while (true)] loop
    never exits: the fuel runs out exactly on divergence. *)
Fixpoint probe (fuel : nat) (t : hash_table) (key : list Z) (nid : Z) (h : nat)
    : kres (hash_table * nat) :=
  match fuel with
  | O => KDiverge
  | S fuel' =>
      let next := if decide (h + 1 = ht_capacity t)%nat then 0%nat else (h + 1)%nat in
      cas ← read_at (ht_entry2nid t) (Z.of_nat h);
      if decide (cas = -2) then probe fuel' t key nid next
      else if decide (cas = -1) then
        (e2n ← write_at (ht_entry2nid t) (Z.of_nat h) (-2);
         let t := with_entry2nid t e2n in
         ks ← write_key (ht_pd t) nid key (ht_keys t);
         let t := with_keys t ks in
         e2n ← write_at (ht_entry2nid t) (Z.of_nat h) nid;
         mret (with_entry2nid t e2n, h))
      else
        (m ← key_matches t cas key;
         if (m : bool) then mret (t, h) else probe fuel' t key nid next)
  end.

(** [insert(key, nid)]; [hash(key) % capacity] divides by zero for an
    empty table. *)
Definition insert (t : hash_table) (key : list Z) (nid : Z) : kres (hash_table * nat) :=
  if decide (ht_capacity t = 0%nat) then KUndef else
  probe (ht_capacity t) t key nid
    (Z.to_nat (hash (ht_pd t) key mod Z.of_nat (ht_capacity t))).

(** [lookupValue(h)]: the offset [entry2nid[h] * vd] into [values], an
    [int] product. *)
Definition lookupValue (t : hash_table) (h : nat) : kres Z :=
  e ← read_at (ht_entry2nid t) (Z.of_nat h);
  int_res (e * Z.of_nat (ht_vd t)).

(* ------------------------------------------------------------------ *)
(** ** The kernels

    The threads of a kernel run one after the other, in index order, each
    to completion: one of the schedules of the device, and the only one
    for a single point.  The interleavings of [insert] are modelled on
    their own below. *)

Definition BLOCK_SIZE : nat := 1024.

(** [blocks((N + threads.x - 1) / threads.x)] *)
Definition blocks (N : nat) : nat := ((N + BLOCK_SIZE - 1) / BLOCK_SIZE)%nat.

(** The ranks of the threads of a launch of [blocks(N)] blocks of
    [BLOCK_SIZE] threads, in the order the embedding runs them:
    [n = blockIdx.x * blockDim.x + threadIdx.x] is computed in
    [unsigned int].  Grids are taken within the device limit of [2^31 - 1]
    blocks. *)
Definition thread_ranks (N : nat) : list nat :=
  map (fun k => Z.to_nat (Z.of_nat k mod 2 ^ 32)) (seq 0 (blocks N * BLOCK_SIZE)).

Record ReplayEntry := { entry : nat; weight : Q }.

(** [replay] is allocated by [cudaMallocManaged], which does not clear
    memory: an entry never written is [None], and reading it is an access
    the embedding does not follow. *)
Abbreviation replay_buffer := (list (option ReplayEntry)).

(** The ranks index [bary] and [canonical] inside their rows only when
    they lie in [0, pd]. *)
Definition ranks_in_range (pd : nat) (g : geometry) : bool :=
  forallb (fun i => (0 <=? g_rank g !!! i) && (g_rank g !!! i <=? Z.of_nat pd))
    (seq 0 (pd + 1)).

(** [for (i < vd) gpuAtomicAdd(&val[i], w * value[i]);] with [val] at
    offset [off] of [values]. *)
Definition add_row (vd : nat) (off : Z) (w : Q) (value : list Q) (vs : list Q)
    : kres (list Q) :=
  kfold (fun (vs : list Q) (i : nat) => update_at (fun v => v + w * qnth value i)%Q vs (off + Z.of_nat i))
    (seq 0 vd) vs.

(** One corner [r] of thread [n]:
<<
    size_t nid = n * (pd + 1) + r;
    for (i < pd) key[i] = y[i] + canonical[r * (pd + 1) + rank[i]];
    size_t h = table.insert(key, nid);
    replay[nid].entry = h;  replay[nid].weight = bary[r];
    scalar_t* val = table.lookupValue(h);
    for (i < vd) gpuAtomicAdd(&val[i], bary[r] * value[i]);
>>
    [insert] takes [nid] as an [int]. *)
Definition splat_corner (pd vd : nat) (canonical : list Z) (g : geometry) (value : list Q)
    (n : nat) (st : hash_table * replay_buffer) (r : nat) : kres (hash_table * replay_buffer) :=
  let '(t, replay) := st in
  let nid := (n * (pd + 1) + r)%nat in
  '(t, h) ← insert t (corner_key pd canonical g r) (to_int nid);
  replay ← write_at replay (Z.of_nat nid) (Some {| entry := h; weight := qnth (g_bary g) r |});
  off ← lookupValue t h;
  vs ← add_row vd off (qnth (g_bary g) r) value (ht_values t);
  mret (with_values t vs, replay).

(** Thread [n] of [splat_kernel].  For [pd = 0], [pos[pd - 1]] reads index
    [-1], before the buffer for thread 0.  For [pd = 65535] the loop
    [for (uint16_t i = 0; i <= pd; ++i)] never ends. *)
Definition splat_thread (sf : list Q) (canonical : list Z) (src ref : tensor)
    (st : hash_table * replay_buffer) (n : nat) : kres (hash_table * replay_buffer) :=
  if decide (t_rows ref <= n)%nat then mret st else
  let pd := u16 (t_cols ref) in
  let vd := u16 (t_cols src) in
  pos ← t_row ref n;
  value ← t_row src n;
  if decide (pd = 0%nat) then KUndef else
  if decide (pd = 65535%nat) then KDiverge else
  let g := splat_geometry pd sf pos in
  if negb (ranks_in_range pd g) then KUndef else
  kfold (splat_corner pd vd canonical g value n) (seq 0 (pd + 1)) st.

Definition splat_kernel (sf : list Q) (canonical : list Z) (src ref : tensor) (N : nat)
    (st : hash_table * replay_buffer) : kres (hash_table * replay_buffer) :=
  kfold (splat_thread sf canonical src ref) (thread_ranks N) st.

(** [1 + powf(2, -pd)] *)
Definition slice_norm (pd : nat) : Q := (1 + 2 ^ (- Z.of_nat pd))%Q.

(** Corner [r] of thread [n] of [slice_kernel], for the [vd] channels:
<<
    size_t nid = n * (pd + 1) + r;
    scalar_t* val = table.lookupValue(replay[nid].entry);
    for (j < vd) out[j] += replay[nid].weight * val[j] / (1 + powf(2, -pd));
>>
    [out = result[n]] is row [n] of the [cols]-column result. *)
Definition slice_corner (t : hash_table) (replay : replay_buffer) (cols n : nat)
    (out : list Q) (r : nat) : kres (list Q) :=
  let pd := ht_pd t in
  let nid := (n * (pd + 1) + r)%nat in
  e ← read_at replay (Z.of_nat nid);
  match e with
  | Some e =>
      off ← lookupValue t (entry e);
      kfold (fun (out : list Q) (j : nat) =>
          v ← read_at (ht_values t) (off + Z.of_nat j);
          update_at (fun o => o + weight e * v / slice_norm pd)%Q out (Z.of_nat (n * cols + j)))
        (seq 0 (ht_vd t)) out
  | None => KUndef
  end.

(** Thread [n] of [slice_kernel].  For [pd = 65535] the loop
    [for (uint16_t r = 0; r <= pd; ++r)] starts over after [r = 65535] and
    never ends. *)
Definition slice_thread (t : hash_table) (replay : replay_buffer) (cols : nat)
    (out : list Q) (n : nat) : kres (list Q) :=
  if decide (ht_N t <= n)%nat then mret out else
  out ← kfold (slice_corner t replay cols n) (seq 0 (ht_pd t + 1)) out;
  if decide (ht_pd t = 65535%nat) then KDiverge else mret out.

(** [slice]: [result = torch::zeros_like(src)], then [slice_kernel]. *)
Definition slice (t : hash_table) (replay : replay_buffer) (src : tensor) : kres tensor :=
  let result := zeros_like src in
  out ← kfold (slice_thread t replay (t_cols src)) (thread_ranks (ht_N t)) (t_data result);
  mret {| t_rows := t_rows result; t_cols := t_cols result; t_data := out |}.

(* ------------------------------------------------------------------ *)
(** ** The host: [PermutohedralLatticeGPU] and [permutohedral_cuda_filter] *)

Inductive event :=
| Malloc (bytes : Z)       (** [gpuErrchk(cudaMallocManaged(&p, bytes))] *)
| LaunchSplat              (** [splat_kernel<<<blocks, threads>>>] *)
| LaunchSlice              (** [slice_kernel<<<blocks, threads>>>] *)
| Free                     (** [cudaFree(p)], unchecked *)
| Synchronize.             (** [gpuErrchk(cudaDeviceSynchronize())] *)

Inductive outcome :=
| Returned (out : tensor)  (** the call returns [out] *)
| Exited                   (** [gpuAssert] calls [exit] *)
| Hangs                    (** a loop never ends *)
| Undefined.               (** an operation the embedding does not follow *)

(** [sizeof(scalar_t)] for [double]. *)
Definition sizeof_scalar : Z := 8.

(** The runtime refuses a managed allocation of zero bytes
    ([cudaErrorInvalidValue]), and [gpuAssert] then exits.  Device memory
    is taken to be large enough for every other size. *)
Definition malloc_ok (bytes : Z) : bool := negb (bytes =? 0).

(** A sequence of checked allocations, appended to the trace [tr]; [false]
    when one of them failed. *)
Fixpoint run_mallocs (sizes : list Z) (tr : list event) : list event * bool :=
  match sizes with
  | [] => (tr, true)
  | b :: bs => if malloc_ok b then run_mallocs bs (tr ++ [Malloc b])
               else (tr ++ [Malloc b], false)
  end.

(** The [size_t] byte counts of the first allocations of the constructors:
    [keys], [values], [entry2nid] ([HashTableGPU], with
    [capacity = N * (pd + 1)]), then [scaleFactor]. *)
Definition table_allocations (pd vd N : nat) : list Z :=
  let capacity := wrap64 (Z.of_nat N * (Z.of_nat pd + 1)) in
  [wrap64 (capacity * Z.of_nat pd * 2); wrap64 (capacity * Z.of_nat vd * sizeof_scalar);
   wrap64 (capacity * 4); Z.of_nat pd * sizeof_scalar].

(** [filter] after the constructor.  [splat] and [slice] pass [hashTable]
    by value to their kernel; the copy is destroyed at the end of the
    launch statement, and its destructor frees the three buffers it shares
    with [hashTable] ([cudaFree] waits for the kernel first).  [slice]
    then runs on [hashTable] itself: its fields are those of the
    constructor, and its buffers have been freed.
<<
    splat(src, ref);  gpuErrchk(cudaDeviceSynchronize());
    Tensor result = slice(src, ref);  gpuErrchk(cudaDeviceSynchronize());
    return result;
>> *)
Definition filter (sf : list Q) (canonical : list Z) (pd vd N : nat) (src ref : tensor)
    (tr : list event) : list event * outcome :=
  let tr := tr ++ [LaunchSplat] in
  match splat_kernel sf canonical src ref N
          (HashTableGPU pd vd N, replicate (N * (pd + 1)) None) with
  | KDiverge => (tr, Hangs)
  | KUndef => (tr, Undefined)
  | KOk (_, replay) =>
      let t := free_table (HashTableGPU pd vd N) in
      let tr := tr ++ [Free; Free; Free; Synchronize; LaunchSlice] in
      match slice t replay src with
      | KOk out => (tr ++ [Free; Free; Free; Synchronize], Returned out)
      | KDiverge => (tr, Hangs)
      | KUndef => (tr, Undefined)
      end
  end.

(** [permutohedral_cuda_filter(src, ref)]: the lattice is built with
    [pd = ref.size(-1)] and [vd = src.size(-1)] converted to [uint16_t] and
    [N = src.size(0)], then [filter] runs.  After the allocation of
    [scaleFactor], the constructor computes the [int] products
    [(i + 1) * (i + 2)] for [i < pd] and [(pd + 1) * (pd + 1)]; the last
    one is the largest, and it overflows for [pd >= 46340].  Then come the
    allocations of [canonical] and [replay]. *)
Definition permutohedral_cuda_filter (sqrt : Q -> Q) (src ref : tensor)
    : list event * outcome :=
  let pd := u16 (t_cols ref) in
  let vd := u16 (t_cols src) in
  let N := t_rows src in
  let '(tr, ok) := run_mallocs (table_allocations pd vd N) [] in
  if negb ok then (tr, Exited) else
  if negb (int_fits ((Z.of_nat pd + 1) * (Z.of_nat pd + 1))) then (tr, Undefined) else
  let '(tr, ok) := run_mallocs [(Z.of_nat pd + 1) * (Z.of_nat pd + 1) * 2;
                                wrap64 (Z.of_nat N * (Z.of_nat pd + 1) * 16)] tr in
  if negb ok then (tr, Exited) else
  filter (lattice_scale_factors sqrt pd) (canonical_table pd) pd vd N src ref tr.

(** Scenario B: [pd = vd = 1], one point at position [0] with feature [1]. *)
Definition featB : tensor := {| t_rows := 1; t_cols := 1; t_data := [1%Q] |}.
Definition posB : tensor := {| t_rows := 1; t_cols := 1; t_data := [0%Q] |}.
(* ------------------------------------------------------------------ *)
(** ** Properties of the kernels *)

Lemma kfold_app {A B} (f : A -> B -> kres A) (l1 l2 : list B) (a : A) :
  kfold f (l1 ++ l2) a = (a' ← kfold f l1 a; kfold f l2 a').
Proof.
  revert a. induction l1 as [|x l1 IH]; intros a; [reflexivity|].
  cbn [kfold app]. destruct (f a x); cbn; [apply IH|reflexivity|reflexivity].
Qed.

Lemma qnth_lookup (l : list Q) k : qnth l k = default 0%Q (l !! k).
Proof. unfold qnth. apply nth_lookup. Qed.

Lemma int_res_ok (z : Z) : - INT_MAX - 1 <= z <= INT_MAX -> int_res z = KOk z.
Proof.
  intros Hz. unfold int_res, int_fits.
  destruct (Z.leb_spec (- INT_MAX - 1) z); [|lia].
  destruct (Z.leb_spec z INT_MAX); [reflexivity|lia].
Qed.

Lemma read_at_ok {A} (l : list A) (k : nat) (x : A) :
  l !! k = Some x -> read_at l (Z.of_nat k) = KOk x.
Proof.
  intros Hk. unfold read_at. destruct (Z.leb_spec 0 (Z.of_nat k)); [|lia].
  rewrite Nat2Z.id, Hk. reflexivity.
Qed.

Lemma read_at_inv {A} (l : list A) (k : Z) (x : A) :
  read_at l k = KOk x -> 0 <= k /\ l !! Z.to_nat k = Some x.
Proof.
  unfold read_at. destruct (Z.leb_spec 0 k); [|discriminate].
  destruct (l !! Z.to_nat k) eqn:E; [|discriminate]. intros [= <-]. auto.
Qed.

Lemma write_at_ok {A} (l : list A) (k : nat) (x : A) :
  (k < length l)%nat -> write_at l (Z.of_nat k) x = KOk (<[k := x]> l).
Proof.
  intros Hk. unfold write_at.
  destruct (Z.leb_spec 0 (Z.of_nat k)); [|lia].
  destruct (Z.ltb_spec (Z.of_nat k) (Z.of_nat (length l))); [|lia].
  rewrite Nat2Z.id. reflexivity.
Qed.

Lemma insert_alter {A} (f : A -> A) (l : list A) (k : nat) (x : A) :
  l !! k = Some x -> <[k := f x]> l = alter f k l.
Proof.
  intros Hx. apply list_eq. intros i. destruct (decide (i = k)) as [->|Hne].
  - rewrite list_lookup_alter_eq, Hx, list_lookup_insert_eq
      by (apply lookup_lt_is_Some_1; eauto). reflexivity.
  - rewrite list_lookup_alter_ne, list_lookup_insert_ne by congruence. reflexivity.
Qed.

Lemma update_at_ok {A} (f : A -> A) (l : list A) (k : nat) :
  (k < length l)%nat -> update_at f l (Z.of_nat k) = KOk (alter f k l).
Proof.
  intros Hk. destruct (lookup_lt_is_Some_2 l k Hk) as [x Hx].
  unfold update_at. rewrite (read_at_ok l k x Hx). cbn [mbind kres_bind].
  rewrite write_at_ok by exact Hk. rewrite (insert_alter f l k x Hx). reflexivity.
Qed.

(** Adding [c j] at [base + j] for every [j < m]. *)
Lemma fold_alter_add (c : nat -> Q) (base m : nat) (out : list Q) :
  (base + m <= length out)%nat ->
  length (fold_left (fun out j => alter (fun o => o + c j)%Q (base + j)%nat out) (seq 0 m) out)
    = length out /\
  forall k, (qnth (fold_left (fun out j => alter (fun o => o + c j)%Q (base + j)%nat out)
                 (seq 0 m) out) k ==
             qnth out k + if decide (base <= k < base + m)%nat then c (k - base)%nat else 0)%Q.
Proof.
  revert out. induction m as [|m IH]; intros out Hlen.
  - split; [reflexivity|]. intros k. rewrite decide_False by lia. cbn [seq fold_left]. rewrite Qplus_0_r. reflexivity.
  - rewrite seq_S, fold_left_app. cbn [fold_left]. rewrite Nat.add_0_l.
    destruct (IH out ltac:(lia)) as [IHl IHk].
    set (F := fold_left _ (seq 0 m) out) in *. split.
    + rewrite length_alter. exact IHl.
    + intros k. rewrite !qnth_lookup.
      destruct (decide (base + m = k)%nat) as [<-|Hne].
      * rewrite list_lookup_alter_eq.
        destruct (lookup_lt_is_Some_2 F (base + m)%nat ltac:(lia)) as [v Hv].
        rewrite Hv. cbn [default fmap option_fmap option_map].
        pose proof (IHk (base + m)%nat) as Hk. rewrite qnth_lookup, Hv in Hk. cbn [default] in Hk.
        rewrite decide_False in Hk by lia. rewrite decide_True by lia.
        replace (base + m - base)%nat with m by lia. rewrite <- qnth_lookup.
        rewrite Hk. unfold id. ring.
      * rewrite list_lookup_alter_ne by exact Hne. rewrite <- !qnth_lookup, IHk.
        destruct (decide (base <= k < base + m)%nat);
          [rewrite decide_True by lia|rewrite decide_False by lia]; reflexivity.
Qed.

(** A loop whose body [j] adds [c j] at [base + j], in range. *)
Lemma kfold_alter_add (B : list Q -> nat -> kres (list Q)) (c : nat -> Q) (base m : nat)
    (out : list Q) :
  (base + m <= length out)%nat ->
  (forall out' j, (j < m)%nat -> (base + j < length out')%nat ->
     B out' j = KOk (alter (fun o => o + c j)%Q (base + j)%nat out')) ->
  kfold B (seq 0 m) out =
  KOk (fold_left (fun out j => alter (fun o => o + c j)%Q (base + j)%nat out) (seq 0 m) out).
Proof.
  intros Hlen HB. induction m as [|m IH]; [reflexivity|].
  rewrite seq_S, kfold_app, IH by (intros; try lia; apply HB; lia).
  cbn [mbind kres_bind kfold]. rewrite fold_left_app. cbn [fold_left].
  rewrite HB; [reflexivity|lia|].
  destruct (fold_alter_add c base m out ltac:(lia)) as [Hl _]. rewrite Hl. lia.
Qed.

(** The term that corner [r] of thread [n] of [slice_kernel] adds to
    channel [j]: [replay[nid].weight * val[j] / (1 + powf(2, -pd))] with
    [nid = n * (pd + 1) + r] and [val = table.lookupValue(replay[nid].entry)],
    when all these reads are defined. *)
Definition slice_contrib (t : hash_table) (replay : replay_buffer) (n j r : nat) : kres Q :=
  e ← read_at replay (Z.of_nat (n * (ht_pd t + 1) + r));
  match e with
  | Some e =>
      off ← lookupValue t (entry e);
      v ← read_at (ht_values t) (off + Z.of_nat j);
      mret (weight e * v / slice_norm (ht_pd t))%Q
  | None => KUndef
  end.

Lemma slice_contrib_inv t replay n j r q :
  slice_contrib t replay n j r = KOk q ->
  exists e off v, read_at replay (Z.of_nat (n * (ht_pd t + 1) + r)) = KOk (Some e) /\
    lookupValue t (entry e) = KOk off /\ read_at (ht_values t) (off + Z.of_nat j) = KOk v /\
    q = (weight e * v / slice_norm (ht_pd t))%Q.
Proof.
  unfold slice_contrib.
  destruct (read_at replay _) as [[e|]| |] eqn:He; cbn [mbind kres_bind]; try discriminate.
  destruct (lookupValue t (entry e)) as [off| |] eqn:Hoff; cbn [mbind kres_bind];
    try discriminate.
  destruct (read_at (ht_values t) _) as [v| |] eqn:Hv; cbn [mbind kres_bind mret kres_ret];
    try discriminate.
  intros [= <-]. exists e, off, v. auto.
Qed.

Lemma Qsum_snoc (l : list Q) x : (Qsum (l ++ [x]) == Qsum l + x)%Q.
Proof. rewrite Qsum_app. cbn [Qsum fold_right]. ring. Qed.

(** One corner of thread [n], with all its reads defined. *)
Lemma slice_corner_spec t replay cols n out r (c : nat -> Q) :
  (0 < ht_vd t <= cols)%nat -> (n * cols + cols <= length out)%nat ->
  (forall j, (j < ht_vd t)%nat -> slice_contrib t replay n j r = KOk (c j)) ->
  slice_corner t replay cols n out r =
  KOk (fold_left (fun out j => alter (fun o => o + c j)%Q (n * cols + j)%nat out)
         (seq 0 (ht_vd t)) out).
Proof.
  intros Hvd Hlen Hc.
  destruct (slice_contrib_inv t replay n 0 r (c 0%nat) (Hc 0%nat ltac:(lia)))
    as (e & off & v0 & He & Hoff & _).
  unfold slice_corner. rewrite He. cbn [mbind kres_bind]. rewrite Hoff. cbn [mbind kres_bind].
  apply kfold_alter_add; [lia|].
  intros out' j Hj Hk.
  destruct (slice_contrib_inv t replay n j r (c j) (Hc j Hj))
    as (e' & off' & v & He' & Hoff' & Hv & Hcj).
  rewrite He in He'. injection He' as <-. rewrite Hoff in Hoff'. injection Hoff' as <-.
  rewrite Hv. cbn [mbind kres_bind]. rewrite update_at_ok by exact Hk. rewrite Hcj. reflexivity.
Qed.

Lemma slice_corners_spec t replay cols n out m (c : nat -> nat -> Q) :
  (0 < ht_vd t <= cols)%nat -> (n * cols + cols <= length out)%nat -> (m <= ht_pd t + 1)%nat ->
  (forall j r, (j < ht_vd t)%nat -> (r <= ht_pd t)%nat ->
     slice_contrib t replay n j r = KOk (c j r)) ->
  exists out', kfold (slice_corner t replay cols n) (seq 0 m) out = KOk out' /\
    length out' = length out /\
    forall k, (qnth out' k == qnth out k +
      if decide (n * cols <= k < n * cols + ht_vd t)%nat
      then Qsum (map (c (k - n * cols)%nat) (seq 0 m)) else 0)%Q.
Proof.
  intros Hvd Hlen Hm Hrep. induction m as [|m IH].
  - exists out. split; [reflexivity|]. split; [reflexivity|].
    intros k. destruct (decide _); cbn [seq map Qsum fold_right]; ring.
  - destruct (IH ltac:(lia)) as [out1 [Hk1 [Hl1 Hq1]]].
    destruct (fold_alter_add (fun j => c j m) (n * cols) (ht_vd t) out1 ltac:(lia)) as [Hl2 Hq2].
    eexists. split.
    + rewrite seq_S, kfold_app, Hk1. cbn [mbind kres_bind kfold]. rewrite Nat.add_0_l.
      rewrite (slice_corner_spec t replay cols n out1 m (fun j => c j m)) by (auto with lia).
      reflexivity.
    + split; [rewrite Hl2; exact Hl1|]. intros k.
      rewrite Hq2, Hq1, seq_S, map_app.
      destruct (decide (n * cols <= k < n * cols + ht_vd t)%nat); [|ring].
      cbn [map]. rewrite Qsum_snoc, Nat.add_0_l. ring.
Qed.

Lemma row_index_range (n m j cols vd : nat) :
  (j < cols)%nat -> (vd <= cols)%nat ->
  ((m * cols <= n * cols + j < m * cols + vd)%nat <-> n = m /\ (j < vd)%nat).
Proof.
  intros Hj Hvd. split.
  - intros [H1 H2]. destruct (Nat.lt_trichotomy n m) as [Hlt|[->|Hgt]].
    + assert (n * cols + cols <= m * cols)%nat by nia. lia.
    + lia.
    + assert (m * cols + cols <= n * cols)%nat by nia. lia.
  - intros [-> Hj']. lia.
Qed.

Lemma slice_threads_spec t replay cols out m (c : nat -> nat -> nat -> Q) :
  (0 < ht_vd t <= cols)%nat -> length out = (ht_N t * cols)%nat -> ht_pd t <> 65535%nat ->
  (forall n j r, (n < ht_N t)%nat -> (j < ht_vd t)%nat -> (r <= ht_pd t)%nat ->
     slice_contrib t replay n j r = KOk (c n j r)) ->
  exists out', kfold (slice_thread t replay cols) (seq 0 m) out = KOk out' /\
    length out' = length out /\
    forall n j, (n < ht_N t)%nat -> (j < cols)%nat ->
      (qnth out' (n * cols + j) == qnth out (n * cols + j) +
        if decide (n < m /\ j < ht_vd t)%nat
        then Qsum (map (c n j) (seq 0 (ht_pd t + 1))) else 0)%Q.
Proof.
  intros Hvd Hlen Hpd Hrep. induction m as [|m IH].
  - exists out. split; [reflexivity|]. split; [reflexivity|].
    intros n j Hn Hj. rewrite decide_False by lia. ring.
  - destruct IH as [out1 [Hk1 [Hl1 Hq1]]].
    destruct (decide (ht_N t <= m)%nat) as [Hge|Hlt].
    + exists out1. split.
      * rewrite seq_S, kfold_app, Hk1. cbn [mbind kres_bind kfold].
        unfold slice_thread. rewrite Nat.add_0_l, decide_True by exact Hge. reflexivity.
      * split; [exact Hl1|]. intros n j Hn Hj. rewrite Hq1 by assumption.
        destruct (decide (n < m /\ j < ht_vd t)%nat);
          [rewrite decide_True by lia|rewrite decide_False by lia]; reflexivity.
    + destruct (slice_corners_spec t replay cols m out1 (ht_pd t + 1) (c m) Hvd
                  ltac:(nia) ltac:(lia) ltac:(intros; apply Hrep; lia))
        as [out2 [Hk2 [Hl2 Hq2]]].
      exists out2. split.
      * rewrite seq_S, kfold_app, Hk1. cbn [mbind kres_bind kfold].
        unfold slice_thread. rewrite Nat.add_0_l. rewrite decide_False by exact Hlt. rewrite Hk2.
        cbn [mbind kres_bind]. rewrite decide_False by exact Hpd. reflexivity.
      * split; [lia|]. intros n j Hn Hj. rewrite Hq2, Hq1 by assumption.
        destruct (decide (m * cols <= n * cols + j < m * cols + ht_vd t)%nat) as [Hin|Hout].
        -- apply (row_index_range n m j cols (ht_vd t) Hj ltac:(lia)) in Hin as [-> Hj'].
           rewrite decide_False by lia. rewrite decide_True by lia.
           replace (m * cols + j - m * cols)%nat with j by lia. ring.
        -- assert (~ (n = m /\ j < ht_vd t)%nat) as Hnm.
           { intros Hc. apply Hout. apply (row_index_range n m j cols (ht_vd t) Hj ltac:(lia)).
             exact Hc. }
           destruct (decide (n < m /\ j < ht_vd t)%nat);
             [rewrite decide_True by lia|rewrite decide_False by lia]; ring.
Qed.

Lemma qnth_replicate_0 (m k : nat) : qnth (replicate m 0%Q) k = 0%Q.
Proof.
  unfold qnth. revert k. induction m as [|m IH]; intros [|k]; cbn; auto.
Qed.

Lemma blocks_cover (N : nat) : (N <= blocks N * BLOCK_SIZE <= N + 1023)%nat.
Proof.
  unfold blocks, BLOCK_SIZE.
  pose proof (Nat.div_mod (N + 1024 - 1) 1024 ltac:(lia)).
  pose proof (Nat.mod_upper_bound (N + 1024 - 1) 1024 ltac:(lia)). lia.
Qed.

(** Below [2^32] threads, the rank of every thread is its index. *)
Lemma thread_ranks_small (N : nat) :
  Z.of_nat N + 1024 <= 2 ^ 32 -> thread_ranks N = seq 0 (blocks N * BLOCK_SIZE).
Proof.
  intros HN. pose proof (blocks_cover N) as Hb. unfold thread_ranks.
  rewrite <- (map_id (seq 0 (blocks N * BLOCK_SIZE))) at 2. apply map_ext_in.
  intros k Hk. apply in_seq in Hk. rewrite Z.mod_small by lia. apply Nat2Z.id.
Qed.

Lemma slice_kernel_spec t replay src (c : nat -> nat -> nat -> Q) :
  t_rows src = ht_N t -> (0 < ht_vd t <= t_cols src)%nat -> ht_pd t <> 65535%nat ->
  Z.of_nat (ht_N t) + 1024 <= 2 ^ 32 ->
  (forall n j r, (n < ht_N t)%nat -> (j < ht_vd t)%nat -> (r <= ht_pd t)%nat ->
     slice_contrib t replay n j r = KOk (c n j r)) ->
  exists out, slice t replay src = KOk out /\
    t_rows out = t_rows src /\ t_cols out = t_cols src /\
    length (t_data out) = (t_rows src * t_cols src)%nat /\
    forall n j, (n < t_rows src)%nat -> (j < t_cols src)%nat ->
      (qnth (t_data out) (n * t_cols src + j) ==
       if decide (j < ht_vd t)%nat then Qsum (map (c n j) (seq 0 (ht_pd t + 1))) else 0)%Q.
Proof.
  intros Hrows Hvd Hpd HN Hrep.
  destruct (slice_threads_spec t replay (t_cols src) (t_data (zeros_like src))
              (blocks (ht_N t) * BLOCK_SIZE) c Hvd
              ltac:(cbn [zeros_like t_data]; rewrite length_replicate; lia) Hpd Hrep)
    as [out [Hk [Hl Hq]]].
  eexists. split.
  - unfold slice. rewrite thread_ranks_small, Hk by exact HN. reflexivity.
  - cbn [zeros_like t_rows t_cols t_data] in *. split; [reflexivity|]. split; [reflexivity|].
    split; [rewrite Hl, length_replicate; reflexivity|].
    intros n j Hn Hj. rewrite Hq by lia. rewrite qnth_replicate_0.
    pose proof (blocks_cover (ht_N t)).
    destruct (decide (j < ht_vd t)%nat);
      [rewrite decide_True by lia|rewrite decide_False by lia]; ring.
Qed.

Lemma read_at_nil {A} (k : Z) : read_at (@nil A) k = KUndef.
Proof. unfold read_at. destruct (0 <=? k); reflexivity. Qed.

Lemma lookupValue_freed t h : lookupValue (free_table t) h = KUndef.
Proof. unfold lookupValue. cbn [free_table ht_entry2nid]. rewrite read_at_nil. reflexivity. Qed.

Lemma read_at_not_diverge {A} (l : list A) (k : Z) : read_at l k <> KDiverge.
Proof. unfold read_at. destruct (0 <=? k); [destruct (l !! Z.to_nat k)|]; discriminate. Qed.

Lemma slice_thread_freed t replay cols out n :
  (n < ht_N t)%nat -> slice_thread (free_table t) replay cols out n = KUndef.
Proof.
  intros Hn. unfold slice_thread. cbn [free_table ht_N ht_pd ht_vd].
  rewrite decide_False by lia.
  replace (ht_pd t + 1)%nat with (S (ht_pd t)) by lia. cbn [seq kfold].
  unfold slice_corner. cbv zeta.
  destruct (read_at replay _) as [[e|]| |] eqn:E; cbn [mbind kres_bind]; try reflexivity.
  - rewrite lookupValue_freed. reflexivity.
  - exfalso. exact (read_at_not_diverge _ _ E).
Qed.

(** After the splat launch, [slice] reads the buffers of the table the
    destructor of the by-value copy freed: thread 0 makes an access that is
    not defined. *)
Lemma slice_freed_table t replay src :
  (1 <= ht_N t)%nat -> slice (free_table t) replay src = KUndef.
Proof.
  intros HN.
  assert (Hr : exists m, thread_ranks (ht_N t) = 0%nat :: m).
  { unfold thread_ranks. pose proof (blocks_cover (ht_N t)) as Hb.
    destruct (blocks (ht_N t) * BLOCK_SIZE)%nat as [|m] eqn:E; [lia|].
    exists (map (fun k => Z.to_nat (Z.of_nat k mod 2 ^ 32)) (seq 1 m)). reflexivity. }
  destruct Hr as [m Hm]. unfold slice. cbn [free_table ht_N]. rewrite Hm. cbn [kfold].
  rewrite slice_thread_freed by lia. reflexivity.
Qed.

Lemma u16_small (n : nat) : Z.of_nat n < 65536 -> u16 n = n.
Proof. intros H. unfold u16. rewrite Z.mod_small by lia. apply Nat2Z.id. Qed.


(** A zero-byte request makes [gpuErrchk] exit the process. *)
Lemma run_mallocs_zero (sizes : list Z) (tr : list event) :
  In 0 sizes -> (run_mallocs sizes tr).2 = false.
Proof.
  revert tr. induction sizes as [|b bs IH]; intros tr Hin; [destruct Hin|].
  cbn [run_mallocs]. destruct Hin as [->|Hin]; [reflexivity|].
  destruct (malloc_ok b); [apply IH; exact Hin|reflexivity].
Qed.


Definition witness_table : hash_table :=
  {| ht_pd := 1; ht_vd := 1; ht_N := 1; ht_capacity := 2; ht_keys := [0; 1];
     ht_values := [3%Q; 5%Q]; ht_entry2nid := [0; 1] |}.

Definition witness_replay : replay_buffer :=
  [Some {| entry := 0; weight := 1 # 2 |}; Some {| entry := 1; weight := 1 # 4 |}].

(* ------------------------------------------------------------------ *)
(** ** Concurrent [insert]

    The corners of all points are inserted by concurrent device threads.
    Corner [r] of point [n] is the job of thread index [nid = n*(pd+1)+r]:
    its key, its [nid], its weight [bary[r]] and its feature row.  A
    thread is a sequence of atomic steps on the shared table:
<<
    int cas = atomicCAS(&entry2nid[h], -1, -2);
    if (cas == -2) { }                            // pass the bucket
    else if (cas == -1) { keys[nid*pd+i] = key[i]; atomicExch(&entry2nid[h], nid); return h; }
    else { match = keys[cas*pd+i] == key[i] ...; if (match) return h; }
    ++h; if (h == capacity) h = 0;
>>
    followed by the [gpuAtomicAdd]s at [lookupValue(h)].  The key copy of
    the lock owner is one step with its [atomicExch]: its cells
    [keys[nid*pd ..]] are read by no other thread until [entry2nid[h]]
    holds [nid].  Memory is sequentially consistent.  A schedule is the
    list of the threads that take a step, in order.  A step whose access
    is outside a buffer, or whose [int] index overflows, leaves the thread
    in phase [Faulted], where the embedding does not follow it. *)
Record job := { j_key : list Z; j_nid : nat; j_w : Q; j_val : list Q }.

(** Where a thread stands: probing bucket [h] after [k] failed attempts,
    holding the lock of [h], returned from [insert] with [h] (by taking the
    bucket or by finding its key), done with its additions at offset
    [slot], or stopped at an undefined operation. *)
Inductive phase :=
  | Probing (h k : nat)
  | Claimed (h : nat)
  | Inserted (h : nat) (claimed : bool)
  | Added (h : nat) (claimed : bool) (slot : Z)
  | Faulted.

Record cstate := { c_table : hash_table; c_phase : list phase }.

Definition next_h (t : hash_table) (h : nat) : nat :=
  if decide (h + 1 = ht_capacity t)%nat then 0%nat else (h + 1)%nat.

(** Thread [i] stops at an undefined operation. *)
Definition fault_at (s : cstate) (i : nat) : option cstate :=
  Some {| c_table := c_table s; c_phase := <[i := Faulted]> (c_phase s) |}.

(** [insert] takes [nid] as an [int]. *)
Definition thread_step (jobs : list job) (i : nat) (s : cstate) : option cstate :=
  let t := c_table s in
  let ps := c_phase s in
  match ps !! i, jobs !! i with
  | Some (Probing h k), Some j =>
      match read_at (ht_entry2nid t) (Z.of_nat h) with
      | KOk cas =>
          if decide (cas = -2) then
            Some {| c_table := t; c_phase := <[i := Probing (next_h t h) (S k)]> ps |}
          else if decide (cas = -1) then
            match write_at (ht_entry2nid t) (Z.of_nat h) (-2) with
            | KOk e2n => Some {| c_table := with_entry2nid t e2n; c_phase := <[i := Claimed h]> ps |}
            | _ => fault_at s i
            end
          else
            match key_matches t cas (j_key j) with
            | KOk true => Some {| c_table := t; c_phase := <[i := Inserted h false]> ps |}
            | KOk false => Some {| c_table := t; c_phase := <[i := Probing (next_h t h) (S k)]> ps |}
            | _ => fault_at s i
            end
      | _ => fault_at s i
      end
  | Some (Claimed h), Some j =>
      match write_key (ht_pd t) (to_int (j_nid j)) (j_key j) (ht_keys t) with
      | KOk ks =>
          let t := with_keys t ks in
          match write_at (ht_entry2nid t) (Z.of_nat h) (to_int (j_nid j)) with
          | KOk e2n =>
              Some {| c_table := with_entry2nid t e2n; c_phase := <[i := Inserted h true]> ps |}
          | _ => fault_at s i
          end
      | _ => fault_at s i
      end
  | Some (Inserted h c), Some j =>
      match lookupValue t h with
      | KOk off =>
          match add_row (ht_vd t) off (j_w j) (j_val j) (ht_values t) with
          | KOk vs => Some {| c_table := with_values t vs; c_phase := <[i := Added h c off]> ps |}
          | _ => fault_at s i
          end
      | _ => fault_at s i
      end
  | _, _ => None
  end.

(** A schedule runs when every thread it names can take its step. *)
Fixpoint run (jobs : list job) (sched : list nat) (s : cstate) : option cstate :=
  match sched with
  | [] => Some s
  | i :: sched => s' ← thread_step jobs i s; run jobs sched s'
  end.

(** [size_t h = hash(key) % capacity;] *)
Definition start_bucket (t : hash_table) (key : list Z) : nat :=
  Z.to_nat (hash (ht_pd t) key mod Z.of_nat (ht_capacity t)).

Definition init_state (t : hash_table) (jobs : list job) : cstate :=
  {| c_table := t; c_phase := map (fun j => Probing (start_bucket t (j_key j)) 0) jobs |}.

(** The inserts of [splat_kernel]: thread [n < N] computes the geometry of
    its point and issues one insert per corner [r], with
    [nid = n * (pd + 1) + r]. *)
Definition point_jobs (pd : nat) (canonical : list Z) (g : geometry) (value : list Q) (n : nat)
    : list job :=
  map (fun r => {| j_key := corner_key pd canonical g r; j_nid := (n * (pd + 1) + r)%nat;
                   j_w := qnth (g_bary g) r; j_val := value |}) (seq 0 (pd + 1)).

Definition splat_jobs_step (sf : list Q) (canonical : list Z) (src ref : tensor)
    (acc : list job) (n : nat) : kres (list job) :=
  let pd := u16 (t_cols ref) in
  pos ← t_row ref n;
  value ← t_row src n;
  if decide (pd = 0%nat) then KUndef else
  if decide (pd = 65535%nat) then KDiverge else
  let g := splat_geometry pd sf pos in
  if negb (ranks_in_range pd g) then KUndef else mret (acc ++ point_jobs pd canonical g value n).

Definition splat_jobs (sf : list Q) (canonical : list Z) (src ref : tensor) : kres (list job) :=
  kfold (splat_jobs_step sf canonical src ref) (seq 0 (t_rows ref)) [].

(** The updates of a step once its accesses are known to lie inside the
    buffers and its [int] indices to fit: the cells written by
    [write_key], with [nid] as a [nat]; the comparison of [key_matches];
    the offset of [lookupValue]; the additions of [add_row]. *)
Definition write_key_nat (pd nid : nat) (key ks : list Z) : list Z :=
  fold_left (fun ks i => <[(nid * pd + i)%nat := key !!! i]> ks) (seq 0 pd) ks.

Definition key_matches_nat (t : hash_table) (o : nat) (key : list Z) : bool :=
  forallb (fun i => bool_decide (ht_keys t !!! (o * ht_pd t + i)%nat = key !!! i))
    (seq 0 (ht_pd t)).

Definition value_offset (t : hash_table) (h : nat) : Z :=
  ht_entry2nid t !!! h * Z.of_nat (ht_vd t).

Definition add_row_nat (vd : nat) (off : Z) (w : Q) (value vs : list Q) : list Q :=
  fold_left (fun vs i => alter (fun v => v + w * qnth value i)%Q (Z.to_nat off + i)%nat vs)
    (seq 0 vd) vs.

(** [thread_step] with these updates. *)
Definition thread_step_nat (jobs : list job) (i : nat) (s : cstate) : option cstate :=
  let t := c_table s in
  let ps := c_phase s in
  match ps !! i, jobs !! i with
  | Some (Probing h k), Some j =>
      let cas := ht_entry2nid t !!! h in
      if decide (cas = -2) then
        Some {| c_table := t; c_phase := <[i := Probing (next_h t h) (S k)]> ps |}
      else if decide (cas = -1) then
        Some {| c_table := with_entry2nid t (<[h := -2]> (ht_entry2nid t));
                c_phase := <[i := Claimed h]> ps |}
      else if key_matches_nat t (Z.to_nat cas) (j_key j) then
        Some {| c_table := t; c_phase := <[i := Inserted h false]> ps |}
      else Some {| c_table := t; c_phase := <[i := Probing (next_h t h) (S k)]> ps |}
  | Some (Claimed h), Some j =>
      let t := with_keys t (write_key_nat (ht_pd t) (j_nid j) (j_key j) (ht_keys t)) in
      Some {| c_table := with_entry2nid t (<[h := Z.of_nat (j_nid j)]> (ht_entry2nid t));
              c_phase := <[i := Inserted h true]> ps |}
  | Some (Inserted h c), Some j =>
      let off := value_offset t h in
      Some {| c_table := with_values t (add_row_nat (ht_vd t) off (j_w j) (j_val j) (ht_values t));
              c_phase := <[i := Added h c off]> ps |}
  | _, _ => None
  end.

(** The [int] indices of the table stay below [INT_MAX]: [nid < capacity],
    [nid * pd + i < capacity * pd] and [entry2nid[h] * vd < capacity * vd]. *)
Definition int_indices_fit (t : hash_table) : Prop :=
  (Z.of_nat (ht_capacity t) <= INT_MAX) /\
  (Z.of_nat (ht_capacity t * ht_pd t) <= INT_MAX) /\
  (Z.of_nat (ht_capacity t * ht_vd t) <= INT_MAX).


(** Thread phases that hold bucket [h]: locked or published by the
    thread. *)
Definition claims (p : phase) (h : nat) : Prop :=
  match p with
  | Claimed h' | Inserted h' true | Added h' true _ => h' = h
  | _ => False
  end.

Definition published (p : phase) (h : nat) : Prop :=
  match p with
  | Inserted h' true | Added h' true _ => h' = h
  | _ => False
  end.

Definition found (p : phase) (h : nat) : Prop :=
  match p with
  | Inserted h' false | Added h' false _ => h' = h
  | _ => False
  end.

Definition key_eq (pd : nat) (k1 k2 : list Z) : Prop :=
  forall m, (m < pd)%nat -> k1 !!! m = k2 !!! m.

Lemma phase_lookup_inv (ps : list phase) i o p' q :
  <[i:=p']> ps !! o = Some q -> (o = i /\ q = p') \/ (o <> i /\ ps !! o = Some q).
Proof.
  rewrite list_lookup_insert. destruct (decide (i = o /\ i < length ps)%nat) as [[-> _]|Hn].
  - intros H. injection H as <-. left. split; reflexivity.
  - intros H. destruct (decide (o = i)) as [->|Hne]; [|right; split; assumption].
    exfalso. apply Hn. split; [reflexivity|]. apply lookup_lt_Some in H. exact H.
Qed.

Lemma phase_lookup_ne (ps : list phase) i o p' :
  o <> i -> <[i:=p']> ps !! o = ps !! o.
Proof. intros H. apply list_lookup_insert_ne. congruence. Qed.

Lemma start_bucket_lt (t : hash_table) (key : list Z) :
  (0 < ht_capacity t)%nat -> (start_bucket t key < ht_capacity t)%nat.
Proof.
  intros Hc. unfold start_bucket.
  pose proof (Z.mod_pos_bound (hash (ht_pd t) key) (Z.of_nat (ht_capacity t)) ltac:(lia)). lia.
Qed.


Lemma write_key_fold_lookup (pd nid : nat) (key ks : list Z) (a n x : nat) :
  fold_left (fun ks i => <[(nid * pd + i)%nat := key !!! i]> ks) (seq a n) ks !!! x =
  if decide (nid * pd + a <= x < nid * pd + a + n /\ x < length ks)%nat
  then key !!! (x - nid * pd)%nat else ks !!! x.
Proof.
  revert a ks. induction n as [|n IH]; intros a ks; cbn [seq fold_left].
  - rewrite decide_False by lia. reflexivity.
  - rewrite IH, length_insert, list_lookup_total_insert.
    destruct (decide (nid * pd + S a <= x < nid * pd + S a + n /\ x < length ks)%nat);
    destruct (decide (nid * pd + a = x /\ nid * pd + a < length ks)%nat);
    destruct (decide (nid * pd + a <= x < nid * pd + a + S n /\ x < length ks)%nat);
      try lia; try reflexivity.
    f_equal. lia.
Qed.

Lemma write_key_nat_lookup (pd nid : nat) (key ks : list Z) (x : nat) :
  write_key_nat pd nid key ks !!! x =
  if decide (nid * pd <= x < nid * pd + pd /\ x < length ks)%nat
  then key !!! (x - nid * pd)%nat else ks !!! x.
Proof.
  unfold write_key_nat. rewrite write_key_fold_lookup, !Nat.add_0_r. reflexivity.
Qed.

Lemma write_key_nat_length (pd nid : nat) (key ks : list Z) :
  length (write_key_nat pd nid key ks) = length ks.
Proof.
  unfold write_key_nat. generalize (seq 0 pd). intros l. revert ks.
  induction l as [|a l IH]; intros ks; cbn; [reflexivity|]. rewrite IH, length_insert. reflexivity.
Qed.

Lemma claimant_upd (ps : list phase) i p p' o q b :
  ps !! i = Some p -> (forall b, claims p b -> claims p' b) ->
  ps !! o = Some q -> claims q b ->
  exists q', <[i:=p']> ps !! o = Some q' /\ claims q' b.
Proof.
  intros Hi Hpp Ho Hq. destruct (decide (o = i)) as [->|Hoi].
  - rewrite Hi in Ho. injection Ho as <-. exists p'.
    split; [apply list_lookup_insert_eq; apply lookup_lt_Some in Hi; exact Hi|auto].
  - exists q. rewrite phase_lookup_ne by exact Hoi. auto.
Qed.

Lemma published_upd (ps : list phase) i p p' o q b :
  ps !! i = Some p -> (forall b, published p b -> published p' b) ->
  ps !! o = Some q -> published q b ->
  exists q', <[i:=p']> ps !! o = Some q' /\ published q' b.
Proof.
  intros Hi Hpp Ho Hq. destruct (decide (o = i)) as [->|Hoi].
  - rewrite Hi in Ho. injection Ho as <-. exists p'.
    split; [apply list_lookup_insert_eq; apply lookup_lt_Some in Hi; exact Hi|auto].
  - exists q. rewrite phase_lookup_ne by exact Hoi. auto.
Qed.

Lemma e2n_lookup_upd (l : list Z) (h h2 : nat) (v : Z) :
  h2 <> h -> <[h := v]> l !!! h2 = l !!! h2.
Proof. intros H. apply list_lookup_total_insert_ne. congruence. Qed.


Lemma key_matches_spec (t : hash_table) (o : nat) (key : list Z) :
  key_matches_nat t o key = true ->
  forall m, (m < ht_pd t)%nat -> ht_keys t !!! (o * ht_pd t + m)%nat = key !!! m.
Proof.
  unfold key_matches_nat. rewrite forallb_forall. intros H m Hm.
  specialize (H m ltac:(apply in_seq; lia)). apply bool_decide_eq_true in H. exact H.
Qed.

Lemma to_int_small (n : nat) : Z.of_nat n <= INT_MAX -> to_int n = Z.of_nat n.
Proof. unfold to_int, INT_MAX. intros H. rewrite Z.mod_small by lia. lia. Qed.

(** A loop whose body succeeds on every element computes a pure fold. *)
Lemma kfold_pure {A B} (f : A -> B -> kres A) (g : A -> B -> A) (P : B -> Prop) (I : A -> Prop)
    (l : list B) (a : A) :
  Forall P l -> I a -> (forall a x, P x -> I a -> f a x = KOk (g a x) /\ I (g a x)) ->
  kfold f l a = KOk (fold_left g l a).
Proof.
  intros Hl. revert a. induction Hl as [|x l Hx Hl IH]; intros a Ha Hf; [reflexivity|].
  cbn [kfold fold_left]. destruct (Hf a x Hx Ha) as [-> Ha']. cbn [mbind kres_bind].
  apply IH; assumption.
Qed.

Lemma write_key_ok (pd nid : nat) (key ks : list Z) :
  (nid * pd + pd <= length ks)%nat -> Z.of_nat (nid * pd + pd) <= INT_MAX ->
  write_key pd (Z.of_nat nid) key ks = KOk (write_key_nat pd nid key ks).
Proof.
  intros Hlen Hfit. unfold write_key, write_key_nat.
  apply (kfold_pure _ _ (fun i => i < pd)%nat (fun ks : list Z => nid * pd + pd <= length ks)%nat).
  - apply List.Forall_forall. intros i Hi. apply in_seq in Hi. lia.
  - exact Hlen.
  - intros ks' i Hi Hl. cbv beta.
    rewrite (int_res_ok (Z.of_nat nid * Z.of_nat pd)) by nia. cbn [mbind kres_bind].
    rewrite int_res_ok by nia. cbn [mbind kres_bind].
    replace (Z.of_nat nid * Z.of_nat pd + Z.of_nat i) with (Z.of_nat (nid * pd + i)) by lia.
    rewrite write_at_ok by lia. split; [reflexivity|]. rewrite length_insert. exact Hl.
Qed.

Lemma key_matches_ok (t : hash_table) (o : nat) (key : list Z) :
  (o * ht_pd t + ht_pd t <= length (ht_keys t))%nat -> Z.of_nat (o * ht_pd t + ht_pd t) <= INT_MAX ->
  key_matches t (Z.of_nat o) key = KOk (key_matches_nat t o key).
Proof.
  intros Hlen Hfit. unfold key_matches, key_matches_nat.
  set (p := fun i => bool_decide (ht_keys t !!! (o * ht_pd t + i)%nat = key !!! i)).
  rewrite (kfold_pure _ (fun (b : bool) i => if b then p i else false)
             (fun i => i < ht_pd t)%nat (fun _ => True)).
  - f_equal. change (forallb p (seq 0 (ht_pd t))) with (true && forallb p (seq 0 (ht_pd t))).
    generalize true as b. induction (seq 0 (ht_pd t)) as [|i l IH]; intros b; cbn [fold_left forallb].
    + rewrite andb_true_r. reflexivity.
    + rewrite IH. destruct b; reflexivity.
  - apply List.Forall_forall. intros i Hi. apply in_seq in Hi. lia.
  - exact I.
  - intros b i Hi _. cbv beta. split; [|exact I]. destruct b; [|reflexivity].
    rewrite (int_res_ok (Z.of_nat o * Z.of_nat (ht_pd t))) by nia. cbn [mbind kres_bind].
    rewrite int_res_ok by nia. cbn [mbind kres_bind].
    replace (Z.of_nat o * Z.of_nat (ht_pd t) + Z.of_nat i) with (Z.of_nat (o * ht_pd t + i)) by lia.
    rewrite (read_at_ok _ _ _ (list_lookup_lookup_total_lt (ht_keys t) (o * ht_pd t + i)%nat ltac:(lia))). reflexivity.
Qed.

Lemma lookupValue_ok (t : hash_table) (h o : nat) :
  (h < length (ht_entry2nid t))%nat -> ht_entry2nid t !!! h = Z.of_nat o ->
  Z.of_nat (o * ht_vd t) <= INT_MAX -> lookupValue t h = KOk (value_offset t h).
Proof.
  intros Hh Ho Hfit. unfold lookupValue, value_offset.
  rewrite (read_at_ok _ _ _ (list_lookup_lookup_total_lt _ _ Hh)). cbn [mbind kres_bind].
  rewrite Ho. apply int_res_ok. unfold INT_MAX in *. nia.
Qed.

Lemma add_row_nat_length (vd : nat) (off : Z) (w : Q) (value vs : list Q) :
  length (add_row_nat vd off w value vs) = length vs.
Proof.
  unfold add_row_nat. generalize (seq 0 vd). intros l. revert vs.
  induction l as [|a l IH]; intros vs; cbn; [reflexivity|]. rewrite IH, length_alter. reflexivity.
Qed.

Lemma add_row_ok (vd : nat) (off : Z) (w : Q) (value vs : list Q) :
  0 <= off -> (Z.to_nat off + vd <= length vs)%nat ->
  add_row vd off w value vs = KOk (add_row_nat vd off w value vs).
Proof.
  intros Hoff Hlen. unfold add_row, add_row_nat.
  apply (kfold_pure _ _ (fun i => i < vd)%nat (fun vs : list Q => Z.to_nat off + vd <= length vs)%nat).
  - apply List.Forall_forall. intros i Hi. apply in_seq in Hi. lia.
  - exact Hlen.
  - intros vs' i Hi Hl. cbv beta.
    replace (off + Z.of_nat i) with (Z.of_nat (Z.to_nat off + i)) by lia.
    rewrite update_at_ok by lia. split; [reflexivity|]. rewrite length_alter. exact Hl.
Qed.


Lemma claims_one p b1 b2 : claims p b1 -> claims p b2 -> b1 = b2.
Proof. destruct p as [h' k'|h'|h' [|]|h' [|] sl|]; cbn; intros; subst; tauto || congruence. Qed.

Lemma mod_shift_inj (a m1 m2 c : nat) :
  (m1 < m2 < c)%nat -> ((a + m1) mod c <> (a + m2) mod c)%nat.
Proof.
  intros Hm Heq. assert (Hc : c <> 0%nat) by lia.
  pose proof (Nat.div_mod_eq (a + m1) c) as E1. pose proof (Nat.div_mod_eq (a + m2) c) as E2.
  rewrite Heq in E1. generalize dependent ((a + m2) mod c)%nat.
  generalize ((a + m1) / c)%nat ((a + m2) / c)%nat. intros q1 q2 r H1 H2.
  destruct (Nat.le_gt_cases q2 q1) as [Hq|Hq]; [nia|]. assert (c * q1 + c <= c * q2)%nat by nia. lia.
Qed.


(** Steps a thread still has to take: at most [n + 2 - k] while probing
    after [k] failed attempts, then the publication and the addition. *)
Definition remaining (n : nat) (p : phase) : nat :=
  match p with
  | Probing _ k => (n + 2 - k)%nat
  | Claimed _ => 2%nat
  | Inserted _ _ => 1%nat
  | Added _ _ _ => 0%nat
  | Faulted => 0%nat
  end.

Definition remaining_at (n : nat) (s : cstate) (i : nat) : nat :=
  match c_phase s !! i with Some p => remaining n p | None => 0%nat end.

(** Case analysis on the results of the checked operations of a step. *)
Ltac step_cases H :=
  repeat match type of H with
  | context [match ?x with KOk _ => _ | KDiverge => _ | KUndef => _ end] => destruct x
  | context [match decide ?P with left _ => _ | right _ => _ end] => destruct (decide P)
  | context [match ?b with true => _ | false => _ end] => destruct b
  end.

Lemma thread_step_other jobs i i' s s' :
  thread_step jobs i' s = Some s' -> i <> i' -> c_phase s' !! i = c_phase s !! i.
Proof.
  intros Hst Hne. unfold thread_step, fault_at in Hst. cbv zeta in Hst.
  destruct (c_phase s !! i') as [[h k|h|h c|h c sl|]|]; destruct (jobs !! i') as [j|];
    try discriminate; step_cases Hst;
    injection Hst as <-; cbn [c_phase]; apply phase_lookup_ne; exact Hne.
Qed.

Section ConcurrentInsert.

Variable jobs : list job.
Variable t0 : hash_table.
Hypothesis Hnid : forall i j, jobs !! i = Some j -> j_nid j = i.
Hypothesis Hcap : (length jobs <= ht_capacity t0)%nat.
Hypothesis He2n0 : ht_entry2nid t0 = replicate (ht_capacity t0) (-1).
Hypothesis Hkeys0 : length (ht_keys t0) = (ht_capacity t0 * ht_pd t0)%nat.
Hypothesis Hvals0 : length (ht_values t0) = (ht_capacity t0 * ht_vd t0)%nat.
Hypothesis Hfit : int_indices_fit t0.

Let pd := ht_pd t0.
Let cap := ht_capacity t0.

(** The invariant of every reachable state:
    - a bucket that is not free is claimed by a thread; a locked bucket
      holds [-2], a published one the [nid] of its owner; a bucket has at
      most one claimant;
    - a published owner's key is stored at [keys[nid*pd ..]];
    - a thread that returned by finding its key has a published owner with
      an equal key;
    - a thread that added its row did so at [entry2nid[h] * vd];
    - a probing thread stands at [(hash % capacity + k) % capacity], and
      each bucket it passed is claimed by another thread;
    - [values] keeps its length, and no thread has faulted. *)
Record cinv (s : cstate) : Prop := {
  ci_pd : ht_pd (c_table s) = pd;
  ci_vd : ht_vd (c_table s) = ht_vd t0;
  ci_cap : ht_capacity (c_table s) = cap;
  ci_e2n_len : length (ht_entry2nid (c_table s)) = cap;
  ci_keys_len : length (ht_keys (c_table s)) = (cap * pd)%nat;
  ci_len : length (c_phase s) = length jobs;
  ci_claimant : forall h, (h < cap)%nat -> ht_entry2nid (c_table s) !!! h <> -1 ->
    exists o p, c_phase s !! o = Some p /\ claims p h;
  ci_locked : forall o h, c_phase s !! o = Some (Claimed h) ->
    (h < cap)%nat /\ ht_entry2nid (c_table s) !!! h = -2;
  ci_published : forall o p h, c_phase s !! o = Some p -> published p h ->
    (h < cap)%nat /\ ht_entry2nid (c_table s) !!! h = Z.of_nat o;
  ci_unique : forall o o' p p' h, c_phase s !! o = Some p -> c_phase s !! o' = Some p' ->
    claims p h -> claims p' h -> o = o';
  ci_keys : forall o p h j, c_phase s !! o = Some p -> published p h -> jobs !! o = Some j ->
    forall m, (m < pd)%nat -> ht_keys (c_table s) !!! (o * pd + m)%nat = j_key j !!! m;
  ci_found : forall i p h, c_phase s !! i = Some p -> found p h ->
    exists o p' ji jo, c_phase s !! o = Some p' /\ published p' h /\
      jobs !! i = Some ji /\ jobs !! o = Some jo /\ key_eq pd (j_key jo) (j_key ji);
  ci_slot : forall i h c sl, c_phase s !! i = Some (Added h c sl) ->
    sl = value_offset (c_table s) h;
  ci_probing : forall i h k, c_phase s !! i = Some (Probing h k) ->
    exists j, jobs !! i = Some j /\ h = ((start_bucket t0 (j_key j) + k) mod cap)%nat /\
      forall m, (m < k)%nat -> exists o p, c_phase s !! o = Some p /\ o <> i /\
        claims p ((start_bucket t0 (j_key j) + m) mod cap)%nat;
  ci_vals_len : length (ht_values (c_table s)) = (cap * ht_vd t0)%nat;
  ci_nofault : forall o, c_phase s !! o <> Some Faulted
}.

Lemma cinv_init : cinv (init_state t0 jobs).
Proof.
  unfold init_state. constructor; cbn [c_table c_phase]; fold pd cap.
  - reflexivity.
  - reflexivity.
  - reflexivity.
  - rewrite He2n0, length_replicate. reflexivity.
  - exact Hkeys0.
  - apply length_fmap.
  - intros h Hh Hne. exfalso. apply Hne. rewrite He2n0.
    rewrite lookup_total_replicate_2 by lia. reflexivity.
  - intros o h Ho. rewrite list_lookup_fmap in Ho.
    destruct (jobs !! o); cbn in Ho; discriminate.
  - intros o p h Ho Hp. rewrite list_lookup_fmap in Ho.
    destruct (jobs !! o); cbn in Ho; [injection Ho as <-; destruct Hp|discriminate].
  - intros o o' p p' h Ho _ Hp _. rewrite list_lookup_fmap in Ho.
    destruct (jobs !! o); cbn in Ho; [injection Ho as <-; destruct Hp|discriminate].
  - intros o p h j Ho Hp. rewrite list_lookup_fmap in Ho.
    destruct (jobs !! o); cbn in Ho; [injection Ho as <-; destruct Hp|discriminate].
  - intros o p h Ho Hp. rewrite list_lookup_fmap in Ho.
    destruct (jobs !! o); cbn in Ho; [injection Ho as <-; destruct Hp|discriminate].
  - intros o h c sl Ho. rewrite list_lookup_fmap in Ho.
    destruct (jobs !! o); cbn in Ho; discriminate.
  - intros i h k Hi. rewrite list_lookup_fmap in Hi.
    destruct (jobs !! i) as [j|] eqn:Hj; cbn in Hi; [|discriminate].
    injection Hi as <- <-. exists j. split; [reflexivity|]. split.
    + rewrite Nat.add_0_r, Nat.mod_small; [reflexivity|].
      apply start_bucket_lt. apply lookup_lt_Some in Hj. unfold cap. lia.
    + intros m Hm. lia.
  - exact Hvals0.
  - intros o Ho. rewrite list_lookup_fmap in Ho.
    destruct (jobs !! o); cbn in Ho; discriminate.
Qed.


Ltac inv_lookup H :=
  let Hne := fresh "Hne" in
  let Heq := fresh "Heq" in
  apply phase_lookup_inv in H; destruct H as [[-> Heq]|[Hne H]]; [try subst|].

Lemma next_h_mod (t : hash_table) (h : nat) :
  (h < ht_capacity t)%nat -> next_h t h = ((h + 1) mod ht_capacity t)%nat.
Proof.
  intros Hh. unfold next_h. destruct (decide (h + 1 = ht_capacity t)%nat) as [He|He].
  - rewrite He, Nat.Div0.mod_same. reflexivity.
  - rewrite Nat.mod_small by lia. reflexivity.
Qed.

Lemma probing_bucket s i h k :
  cinv s -> c_phase s !! i = Some (Probing h k) -> (0 < cap)%nat /\ (h < cap)%nat.
Proof.
  intros Hs Hi. destruct (ci_probing s Hs i h k Hi) as (j & Hj & -> & _).
  apply lookup_lt_Some in Hj. assert (0 < cap)%nat by (unfold cap; lia).
  split; [assumption|]. apply Nat.mod_upper_bound. lia.
Qed.

(** A thread that passes bucket [h] (locked, or owned with another key). *)
Lemma step_skip s i h k :
  cinv s -> c_phase s !! i = Some (Probing h k) ->
  ht_entry2nid (c_table s) !!! h <> -1 ->
  cinv {| c_table := c_table s;
          c_phase := <[i := Probing (next_h (c_table s) h) (S k)]> (c_phase s) |}.
Proof.
  intros Hs Hi Hh. pose proof (probing_bucket s i h k Hs Hi) as [Hc0 Hhc].
  destruct Hs as [Hpd Hvd Hcp He Hk Hl Hcl Hlo Hpu Hun Hke Hfo Hsl Hpr Hvl Hnf].
  constructor; cbn [c_table c_phase].
  - exact Hpd.
  - exact Hvd.
  - exact Hcp.
  - exact He.
  - exact Hk.
  - rewrite length_insert. exact Hl.
  - intros h2 Hh2 Hne. destruct (Hcl h2 Hh2 Hne) as (o & p & Ho & Hc).
    exists o, p. destruct (decide (o = i)) as [->|Hoi].
    + rewrite Hi in Ho. injection Ho as <-. destruct Hc.
    + rewrite phase_lookup_ne by exact Hoi. split; assumption.
  - intros o h2 Ho. inv_lookup Ho; [discriminate|]. exact (Hlo o h2 Ho).
  - intros o p h2 Ho Hp. inv_lookup Ho; [destruct Hp|]. exact (Hpu o p h2 Ho Hp).
  - intros o o' p p' h2 Ho Ho' Hp Hp'.
    inv_lookup Ho; [destruct Hp|]. inv_lookup Ho'; [destruct Hp'|].
    exact (Hun o o' p p' h2 Ho Ho' Hp Hp').
  - intros o p h2 j Ho Hp. inv_lookup Ho; [destruct Hp|]. exact (Hke o p h2 j Ho Hp).
  - intros i' p h2 Hi' Hp. inv_lookup Hi'; [destruct Hp|].
    destruct (Hfo i' p h2 Hi' Hp) as (o & p' & ji & jo & Ho & Hp' & Hji & Hjo & Hkey).
    exists o, p', ji, jo. destruct (decide (o = i)) as [->|Hoi].
    + rewrite Hi in Ho. injection Ho as <-. destruct Hp'.
    + rewrite phase_lookup_ne by exact Hoi. auto.
  - intros i' h2 c sl Hi'. inv_lookup Hi'; [discriminate|]. exact (Hsl i' h2 c sl Hi').
  - intros i' h2 k2 Hi'. inv_lookup Hi'.
    + injection Heq as -> ->. destruct (Hpr i h k Hi) as (j & Hj & Hhk & Hm).
      exists j. split; [exact Hj|]. split.
      * rewrite next_h_mod by (rewrite Hcp; exact Hhc). rewrite Hcp, Hhk.
        fold cap. rewrite Nat.Div0.add_mod_idemp_l. f_equal. lia.
      * intros m Hmk. destruct (decide (m = k)) as [->|Hmk'].
        -- rewrite <- Hhk. destruct (Hcl h Hhc Hh) as (o & p & Ho & Hc).
           exists o, p. destruct (decide (o = i)) as [->|Hoi].
           ++ rewrite Hi in Ho. injection Ho as <-. destruct Hc.
           ++ rewrite phase_lookup_ne by exact Hoi. auto.
        -- destruct (Hm m ltac:(lia)) as (o & p & Ho & Hoi & Hc).
           exists o, p. rewrite phase_lookup_ne by exact Hoi. auto.
    + destruct (Hpr i' h2 k2 Hi') as (j & Hj & Hhk & Hm).
      exists j. split; [exact Hj|]. split; [exact Hhk|].
      intros m Hmk. destruct (Hm m Hmk) as (o & p & Ho & Hoi' & Hc).
      exists o, p. destruct (decide (o = i)) as [->|Hoi].
      * rewrite Hi in Ho. injection Ho as <-. destruct Hc.
      * rewrite phase_lookup_ne by exact Hoi. auto.
  - exact Hvl.
  - intros o Ho. inv_lookup Ho; [discriminate|exact (Hnf o Ho)].
Qed.

Lemma claims_marked s o p h :
  cinv s -> c_phase s !! o = Some p -> claims p h ->
  (h < cap)%nat /\ ht_entry2nid (c_table s) !!! h <> -1.
Proof.
  intros Hs Ho Hc. destruct p as [h' k|h'|h' [|]|h' [|] sl|]; cbn in Hc; try contradiction; subst h'.
  - destruct (ci_locked s Hs o h Ho) as [Hh ->]. split; [exact Hh|discriminate].
  - destruct (ci_published s Hs o _ h Ho eq_refl) as [Hh ->]. split; [exact Hh|lia].
  - destruct (ci_published s Hs o _ h Ho eq_refl) as [Hh ->]. split; [exact Hh|lia].
Qed.

Lemma settled s i h c :
  cinv s -> (c_phase s !! i = Some (Inserted h c) \/ exists sl, c_phase s !! i = Some (Added h c sl)) ->
  exists o, ht_entry2nid (c_table s) !!! h = Z.of_nat o /\ (o < length jobs)%nat /\ (h < cap)%nat.
Proof.
  intros Hs Hi. destruct c.
  - exists i. assert (Hp : exists p, c_phase s !! i = Some p /\ published p h)
      by (destruct Hi as [Hi|[sl Hi]]; eexists; split; [exact Hi|reflexivity|exact Hi|reflexivity]).
    destruct Hp as (p & Hi' & Hp).
    destruct (ci_published s Hs i p h Hi' Hp) as [Hh He]. split; [exact He|]. split; [|exact Hh].
    apply lookup_lt_Some in Hi'. rewrite (ci_len s Hs) in Hi'. exact Hi'.
  - assert (Hf : exists p, c_phase s !! i = Some p /\ found p h)
      by (destruct Hi as [Hi|[sl Hi]]; eexists; split; [exact Hi|reflexivity|exact Hi|reflexivity]).
    destruct Hf as (p & Hi' & Hf).
    destruct (ci_found s Hs i p h Hi' Hf) as (o & p' & _ & _ & Ho & Hp' & _).
    exists o. destruct (ci_published s Hs o p' h Ho Hp') as [Hh He]. split; [exact He|].
    split; [|exact Hh]. apply lookup_lt_Some in Ho. rewrite (ci_len s Hs) in Ho. exact Ho.
Qed.

(** A thread that takes a free bucket: [atomicCAS] turns [-1] into [-2]. *)
Lemma step_claim s i h k :
  cinv s -> c_phase s !! i = Some (Probing h k) ->
  ht_entry2nid (c_table s) !!! h = -1 ->
  cinv {| c_table := with_entry2nid (c_table s) (<[h := -2]> (ht_entry2nid (c_table s)));
          c_phase := <[i := Claimed h]> (c_phase s) |}.
Proof.
  intros Hs Hi Hh. pose proof (probing_bucket s i h k Hs Hi) as [Hc0 Hhc].
  pose proof (lookup_lt_Some _ _ _ Hi) as Hil.
  assert (Hnot : forall o p, c_phase s !! o = Some p -> claims p h -> False).
  { intros o p Ho Hp. destruct (claims_marked s o p h Hs Ho Hp) as [_ Hm]. contradiction. }
  assert (Hupd : forall h2, <[h := -2]> (ht_entry2nid (c_table s)) !!! h2 =
                   if decide (h2 = h) then -2 else ht_entry2nid (c_table s) !!! h2).
  { intros h2. destruct (decide (h2 = h)) as [->|Hne].
    - apply list_lookup_total_insert_eq. rewrite (ci_e2n_len s Hs). exact Hhc.
    - apply e2n_lookup_upd. exact Hne. }
  pose proof Hs as Hs0.
  destruct Hs as [Hpd Hvd Hcp He Hk Hl Hcl Hlo Hpu Hun Hke Hfo Hsl Hpr Hvl Hnf].
  constructor; cbn [c_table c_phase ht_pd ht_vd ht_capacity ht_keys ht_entry2nid with_entry2nid].
  - exact Hpd.
  - exact Hvd.
  - exact Hcp.
  - rewrite length_insert. exact He.
  - exact Hk.
  - rewrite length_insert. exact Hl.
  - intros h2 Hh2 Hne. rewrite Hupd in Hne. destruct (decide (h2 = h)) as [->|Hh2h].
    + exists i, (Claimed h). split; [apply list_lookup_insert_eq; exact Hil|reflexivity].
    + destruct (Hcl h2 Hh2 Hne) as (o & p & Ho & Hc).
      destruct (claimant_upd _ i _ (Claimed h) o p h2 Hi ltac:(intros b []) Ho Hc) as (q & Hq & Hcq).
      exists o, q. auto.
  - intros o h2 Ho. rewrite Hupd. inv_lookup Ho.
    + injection Heq as ->. rewrite decide_True by reflexivity. split; [exact Hhc|reflexivity].
    + destruct (Hlo o h2 Ho) as [Hh2 Hm]. rewrite decide_False; [split; assumption|].
      intros ->. congruence.
  - intros o p h2 Ho Hp. rewrite Hupd. inv_lookup Ho; [destruct Hp|].
    destruct (Hpu o p h2 Ho Hp) as [Hh2 Hm]. rewrite decide_False; [split; assumption|].
    intros ->. lia.
  - intros o o' p p' h2 Ho Ho' Hp Hp'.
    inv_lookup Ho; inv_lookup Ho'; try reflexivity.
    + cbn in Hp. subst h2. destruct (Hnot o' p' Ho' Hp').
    + cbn in Hp'. subst h2. destruct (Hnot o p Ho Hp).
    + exact (Hun o o' p p' h2 Ho Ho' Hp Hp').
  - intros o p h2 j Ho Hp. inv_lookup Ho; [destruct Hp|]. exact (Hke o p h2 j Ho Hp).
  - intros i' p h2 Hi' Hp. inv_lookup Hi'; [destruct Hp|].
    destruct (Hfo i' p h2 Hi' Hp) as (o & p' & ji & jo & Ho & Hp' & Hji & Hjo & Hkey).
    destruct (published_upd _ i _ (Claimed h) o p' h2 Hi ltac:(intros b []) Ho Hp') as (q & Hq & Hpq).
    exists o, q, ji, jo. auto.
  - intros i' h2 c sl Hi'. inv_lookup Hi'; [discriminate|].
    rewrite (Hsl i' h2 c sl Hi'). unfold value_offset. cbn [ht_entry2nid ht_vd with_entry2nid].
    rewrite Hupd. destruct (decide (h2 = h)) as [->|]; [|reflexivity].
    destruct (settled s i' h c Hs0 (or_intror (ex_intro _ sl Hi'))) as (o & Ho & _). lia.
  - intros i' h2 k2 Hi'. inv_lookup Hi'; [discriminate|].
    destruct (Hpr i' h2 k2 Hi') as (j & Hj & Hhk & Hm).
    exists j. split; [exact Hj|]. split; [exact Hhk|].
    intros m Hmk. destruct (Hm m Hmk) as (o & p & Ho & Hoi' & Hc).
    destruct (claimant_upd _ i _ (Claimed h) o p _ Hi ltac:(intros b []) Ho Hc) as (q & Hq & Hcq).
    exists o, q. auto.
  - exact Hvl.
  - intros o Ho. inv_lookup Ho; [discriminate|exact (Hnf o Ho)].
Qed.

(** A thread that finds its key in an owned bucket: [insert] returns [h]. *)
Lemma step_match s i h k j :
  cinv s -> c_phase s !! i = Some (Probing h k) -> jobs !! i = Some j ->
  ht_entry2nid (c_table s) !!! h <> -2 -> ht_entry2nid (c_table s) !!! h <> -1 ->
  key_matches_nat (c_table s) (Z.to_nat (ht_entry2nid (c_table s) !!! h)) (j_key j) = true ->
  cinv {| c_table := c_table s; c_phase := <[i := Inserted h false]> (c_phase s) |}.
Proof.
  intros Hs Hi Hj H2 H1 Hkm. pose proof (probing_bucket s i h k Hs Hi) as [Hc0 Hhc].
  pose proof (lookup_lt_Some _ _ _ Hi) as Hil.
  pose proof Hs as Hs0.
  destruct Hs as [Hpd Hvd Hcp He Hk Hl Hcl Hlo Hpu Hun Hke Hfo Hsl Hpr Hvl Hnf].
  constructor; cbn [c_table c_phase].
  - exact Hpd.
  - exact Hvd.
  - exact Hcp.
  - exact He.
  - exact Hk.
  - rewrite length_insert. exact Hl.
  - intros h2 Hh2 Hne. destruct (Hcl h2 Hh2 Hne) as (o & p & Ho & Hc).
    destruct (claimant_upd _ i _ (Inserted h false) o p h2 Hi ltac:(intros b []) Ho Hc)
      as (q & Hq & Hcq).
    exists o, q. auto.
  - intros o h2 Ho. inv_lookup Ho; [discriminate|]. exact (Hlo o h2 Ho).
  - intros o p h2 Ho Hp. inv_lookup Ho; [destruct Hp|]. exact (Hpu o p h2 Ho Hp).
  - intros o o' p p' h2 Ho Ho' Hp Hp'.
    inv_lookup Ho; [destruct Hp|]. inv_lookup Ho'; [destruct Hp'|].
    exact (Hun o o' p p' h2 Ho Ho' Hp Hp').
  - intros o p h2 j' Ho Hp. inv_lookup Ho; [destruct Hp|]. exact (Hke o p h2 j' Ho Hp).
  - intros i' p h2 Hi' Hp. inv_lookup Hi'.
    + cbn in Hp. subst h2.
      destruct (Hcl h Hhc H1) as (o & p & Ho & Hc).
      destruct p as [h' k'|h'|h' [|]|h' [|] sl|]; cbn in Hc; try contradiction; subst h'.
      * destruct (Hlo o h Ho) as [_ Hm]. contradiction.
      * destruct (Hpu o _ h Ho eq_refl) as [_ Hm].
        assert (Hoi : o <> i) by (intros ->; congruence).
        destruct (lookup_lt_is_Some_2 jobs o) as [jo Hjo].
        { apply lookup_lt_Some in Ho. lia. }
        exists o, (Inserted h true), j, jo.
        rewrite phase_lookup_ne by exact Hoi.
        split; [exact Ho|]. split; [reflexivity|]. split; [exact Hj|]. split; [exact Hjo|].
        intros m Hm'. rewrite <- (Hke o _ h jo Ho eq_refl Hjo m Hm').
        rewrite Hm, Nat2Z.id in Hkm. rewrite <- Hpd. apply key_matches_spec; [exact Hkm|]. lia.
      * destruct (Hpu o _ h Ho eq_refl) as [_ Hm].
        assert (Hoi : o <> i) by (intros ->; congruence).
        destruct (lookup_lt_is_Some_2 jobs o) as [jo Hjo].
        { apply lookup_lt_Some in Ho. lia. }
        exists o, (Added h true sl), j, jo.
        rewrite phase_lookup_ne by exact Hoi.
        split; [exact Ho|]. split; [reflexivity|]. split; [exact Hj|]. split; [exact Hjo|].
        intros m Hm'. rewrite <- (Hke o _ h jo Ho eq_refl Hjo m Hm').
        rewrite Hm, Nat2Z.id in Hkm. rewrite <- Hpd. apply key_matches_spec; [exact Hkm|]. lia.
    + destruct (Hfo i' p h2 Hi' Hp) as (o & p' & ji & jo & Ho & Hp' & Hji & Hjo & Hkey).
      destruct (published_upd _ i _ (Inserted h false) o p' h2 Hi ltac:(intros b []) Ho Hp')
        as (q & Hq & Hpq).
      exists o, q, ji, jo. auto.
  - intros i' h2 c sl Hi'. inv_lookup Hi'; [discriminate|]. exact (Hsl i' h2 c sl Hi').
  - intros i' h2 k2 Hi'. inv_lookup Hi'; [discriminate|].
    destruct (Hpr i' h2 k2 Hi') as (j' & Hj' & Hhk & Hm).
    exists j'. split; [exact Hj'|]. split; [exact Hhk|].
    intros m Hmk. destruct (Hm m Hmk) as (o & p & Ho & Hoi' & Hc).
    destruct (claimant_upd _ i _ (Inserted h false) o p _ Hi ltac:(intros b []) Ho Hc)
      as (q & Hq & Hcq).
    exists o, q. auto.
  - exact Hvl.
  - intros o Ho. inv_lookup Ho; [discriminate|exact (Hnf o Ho)].
Qed.

Lemma published_claims p h : published p h -> claims p h.
Proof. destruct p as [h' k'|h'|h' [|]|h' [|] sl|]; cbn; tauto. Qed.

(** The owner of a locked bucket writes its key and publishes its [nid]. *)
Lemma step_publish s i h j :
  cinv s -> c_phase s !! i = Some (Claimed h) -> jobs !! i = Some j ->
  cinv {| c_table :=
            with_entry2nid
              (with_keys (c_table s) (write_key_nat (ht_pd (c_table s)) (j_nid j) (j_key j)
                                                (ht_keys (c_table s))))
              (<[h := Z.of_nat (j_nid j)]> (ht_entry2nid (c_table s)));
          c_phase := <[i := Inserted h true]> (c_phase s) |}.
Proof.
  intros Hs Hi Hj. rewrite (Hnid i j Hj).
  pose proof (lookup_lt_Some _ _ _ Hi) as Hil.
  pose proof Hs as Hs0.
  destruct (ci_locked s Hs i h Hi) as [Hhc Hlk].
  assert (Hupd : forall h2, <[h := Z.of_nat i]> (ht_entry2nid (c_table s)) !!! h2 =
                   if decide (h2 = h) then Z.of_nat i else ht_entry2nid (c_table s) !!! h2).
  { intros h2. destruct (decide (h2 = h)) as [->|Hne].
    - apply list_lookup_total_insert_eq. rewrite (ci_e2n_len s Hs). exact Hhc.
    - apply e2n_lookup_upd. exact Hne. }
  assert (Hother : forall o p h2, c_phase s !! o = Some p -> claims p h2 -> o <> i -> h2 <> h).
  { intros o p h2 Ho Hp Hoi ->. apply Hoi. exact (ci_unique s Hs o i p _ h Ho Hi Hp eq_refl). }
  destruct Hs as [Hpd Hvd Hcp He Hk Hl Hcl Hlo Hpu Hun Hke Hfo Hsl Hpr Hvl Hnf].
  assert (Hlift : forall b, claims (Claimed h) b -> claims (Inserted h true) b) by (intros b Hb; exact Hb).
  constructor; cbn [c_table c_phase ht_pd ht_vd ht_capacity ht_keys ht_entry2nid
                    with_entry2nid with_keys].
  - exact Hpd.
  - exact Hvd.
  - exact Hcp.
  - rewrite length_insert. exact He.
  - rewrite write_key_nat_length. exact Hk.
  - rewrite length_insert. exact Hl.
  - intros h2 Hh2 Hne. rewrite Hupd in Hne. destruct (decide (h2 = h)) as [->|Hh2h].
    + exists i, (Inserted h true). split; [apply list_lookup_insert_eq; exact Hil|reflexivity].
    + destruct (Hcl h2 Hh2 Hne) as (o & p & Ho & Hc).
      destruct (claimant_upd _ i _ _ o p h2 Hi Hlift Ho Hc) as (q & Hq & Hcq).
      exists o, q. auto.
  - intros o h2 Ho. rewrite Hupd. inv_lookup Ho; [discriminate|].
    destruct (Hlo o h2 Ho) as [Hh2 Hm].
    rewrite decide_False by exact (Hother o _ h2 Ho eq_refl Hne). split; assumption.
  - intros o p h2 Ho Hp. rewrite Hupd. inv_lookup Ho.
    + cbn in Hp. subst h2. rewrite decide_True by reflexivity. split; [exact Hhc|reflexivity].
    + destruct (Hpu o p h2 Ho Hp) as [Hh2 Hm].
      rewrite decide_False by exact (Hother o p h2 Ho (published_claims p h2 Hp) Hne).
      split; assumption.
  - intros o o' p p' h2 Ho Ho' Hp Hp'.
    inv_lookup Ho; inv_lookup Ho'; try reflexivity.
    + exact (Hun i o' _ p' h2 Hi Ho' Hp Hp').
    + exact (Hun o i p _ h2 Ho Hi Hp Hp').
    + exact (Hun o o' p p' h2 Ho Ho' Hp Hp').
  - intros o p h2 j' Ho Hp Hj' m Hm. rewrite write_key_nat_lookup, Hpd, Hk.
    inv_lookup Ho.
    + rewrite Hj in Hj'. injection Hj' as <-.
      rewrite decide_True by (split; [lia|]; nia). f_equal. lia.
    + rewrite decide_False.
      * exact (Hke o p h2 j' Ho Hp Hj' m Hm).
      * intros [[Hlo' Hhi] _]. apply Hne.
        destruct (Nat.lt_trichotomy o i) as [Hlt|[Heq'|Hgt]]; [|exact Heq'|]; nia.
  - intros i' p h2 Hi' Hp. inv_lookup Hi'; [destruct Hp|].
    destruct (Hfo i' p h2 Hi' Hp) as (o & p' & ji & jo & Ho & Hp' & Hji & Hjo & Hkey).
    destruct (published_upd _ i _ (Inserted h true) o p' h2 Hi ltac:(intros b []) Ho Hp')
      as (q & Hq & Hpq).
    exists o, q, ji, jo. auto.
  - intros i' h2 c sl Hi'. inv_lookup Hi'; [discriminate|].
    rewrite (Hsl i' h2 c sl Hi'). unfold value_offset.
    cbn [ht_entry2nid ht_vd with_entry2nid with_keys].
    rewrite Hupd. destruct (decide (h2 = h)) as [->|]; [|reflexivity].
    destruct (settled s i' h c Hs0 (or_intror (ex_intro _ sl Hi'))) as (o & Ho & _). lia.
  - intros i' h2 k2 Hi'. inv_lookup Hi'; [discriminate|].
    destruct (Hpr i' h2 k2 Hi') as (j' & Hj' & Hhk & Hm).
    exists j'. split; [exact Hj'|]. split; [exact Hhk|].
    intros m Hmk. destruct (Hm m Hmk) as (o & p & Ho & Hoi' & Hc).
    destruct (claimant_upd _ i _ _ o p _ Hi Hlift Ho Hc) as (q & Hq & Hcq).
    exists o, q. auto.
  - exact Hvl.
  - intros o Ho. inv_lookup Ho; [discriminate|exact (Hnf o Ho)].
Qed.

(** [gpuAtomicAdd] of the weighted row at [lookupValue(h)] (in range). *)
Lemma step_add s i h c j :
  cinv s -> c_phase s !! i = Some (Inserted h c) -> jobs !! i = Some j ->
  cinv {| c_table := with_values (c_table s)
            (add_row_nat (ht_vd (c_table s)) (value_offset (c_table s) h) (j_w j) (j_val j)
                     (ht_values (c_table s)));
          c_phase := <[i := Added h c (value_offset (c_table s) h)]> (c_phase s) |}.
Proof.
  intros Hs Hi Hj.
  pose proof (lookup_lt_Some _ _ _ Hi) as Hil.
  set (sl := value_offset (c_table s) h).
  assert (Hlift : forall b, claims (Inserted h c) b -> claims (Added h c sl) b)
    by (intros b; destruct c; exact id).
  assert (Hliftp : forall b, published (Inserted h c) b -> published (Added h c sl) b)
    by (intros b; destruct c; exact id).
  assert (Hlow : forall b, claims (Added h c sl) b -> claims (Inserted h c) b)
    by (intros b; destruct c; exact id).
  assert (Hlowp : forall b, published (Added h c sl) b -> published (Inserted h c) b)
    by (intros b; destruct c; exact id).
  assert (Hlowf : forall b, found (Added h c sl) b -> found (Inserted h c) b)
    by (intros b; destruct c; exact id).
  destruct Hs as [Hpd Hvd Hcp He Hk Hl Hcl Hlo Hpu Hun Hke Hfo Hsl Hpr Hvl Hnf].
  constructor; cbn [c_table c_phase ht_pd ht_vd ht_capacity ht_keys ht_entry2nid with_values].
  - exact Hpd.
  - exact Hvd.
  - exact Hcp.
  - exact He.
  - exact Hk.
  - rewrite length_insert. exact Hl.
  - intros h2 Hh2 Hne. destruct (Hcl h2 Hh2 Hne) as (o & p & Ho & Hc).
    destruct (claimant_upd _ i _ _ o p h2 Hi Hlift Ho Hc) as (q & Hq & Hcq).
    exists o, q. auto.
  - intros o h2 Ho. inv_lookup Ho; [discriminate|]. exact (Hlo o h2 Ho).
  - intros o p h2 Ho Hp. inv_lookup Ho.
    + exact (Hpu i _ h2 Hi (Hlowp h2 Hp)).
    + exact (Hpu o p h2 Ho Hp).
  - intros o o' p p' h2 Ho Ho' Hp Hp'.
    inv_lookup Ho; inv_lookup Ho'; try reflexivity.
    + exact (Hun i o' _ p' h2 Hi Ho' (Hlow h2 Hp) Hp').
    + exact (Hun o i p _ h2 Ho Hi Hp (Hlow h2 Hp')).
    + exact (Hun o o' p p' h2 Ho Ho' Hp Hp').
  - intros o p h2 j' Ho Hp. inv_lookup Ho.
    + exact (Hke i _ h2 j' Hi (Hlowp h2 Hp)).
    + exact (Hke o p h2 j' Ho Hp).
  - intros i' p h2 Hi' Hp.
    assert (Hold : exists p0, c_phase s !! i' = Some p0 /\ found p0 h2).
    { inv_lookup Hi'; [exists (Inserted h c); split; [exact Hi|exact (Hlowf h2 Hp)]|].
      exists p. split; assumption. }
    destruct Hold as (p0 & Hp0 & Hf0).
    destruct (Hfo i' p0 h2 Hp0 Hf0) as (o & p' & ji & jo & Ho & Hp' & Hji & Hjo & Hkey).
    destruct (published_upd _ i _ _ o p' h2 Hi Hliftp Ho Hp') as (q & Hq & Hpq).
    exists o, q, ji, jo. auto.
  - intros i' h2 c2 sl2 Hi'. unfold value_offset at 1. cbn [ht_entry2nid ht_vd with_values].
    inv_lookup Hi'.
    + injection Heq as -> -> ->. reflexivity.
    + exact (Hsl i' h2 c2 sl2 Hi').
  - intros i' h2 k2 Hi'. inv_lookup Hi'; [discriminate|].
    destruct (Hpr i' h2 k2 Hi') as (j' & Hj' & Hhk & Hm).
    exists j'. split; [exact Hj'|]. split; [exact Hhk|].
    intros m Hmk. destruct (Hm m Hmk) as (o & p & Ho & Hoi' & Hc).
    destruct (claimant_upd _ i _ _ o p _ Hi Hlift Ho Hc) as (q & Hq & Hcq).
    exists o, q. auto.
  - cbn [ht_values with_values]. rewrite add_row_nat_length. exact Hvl.
  - intros o Ho. inv_lookup Ho; [discriminate|exact (Hnf o Ho)].
Qed.

(** The [nid] of the owner of a bucket that is neither free nor locked. *)
Lemma owner_of s h :
  cinv s -> (h < cap)%nat ->
  ht_entry2nid (c_table s) !!! h <> -1 -> ht_entry2nid (c_table s) !!! h <> -2 ->
  exists o, ht_entry2nid (c_table s) !!! h = Z.of_nat o /\ (o < length jobs)%nat.
Proof.
  intros Hs Hh H1 H2. destruct (ci_claimant s Hs h Hh H1) as (o & p & Ho & Hc).
  destruct p as [h' k|h'|h' [|]|h' [|] sl|]; cbn in Hc; try contradiction; subst h'.
  - destruct (ci_locked s Hs o h Ho) as [_ Hm]. contradiction.
  - exists o. split; [exact (proj2 (ci_published s Hs o _ h Ho eq_refl))|].
    apply lookup_lt_Some in Ho. rewrite (ci_len s Hs) in Ho. exact Ho.
  - exists o. split; [exact (proj2 (ci_published s Hs o _ h Ho eq_refl))|].
    apply lookup_lt_Some in Ho. rewrite (ci_len s Hs) in Ho. exact Ho.
Qed.

(** On a state of the invariant every access of a step lies inside its
    buffer and every [int] index fits: the step is [thread_step_nat]. *)
Lemma thread_step_fits s i :
  cinv s -> thread_step jobs i s = thread_step_nat jobs i s.
Proof.
  intros Hs. destruct Hfit as (Hfc & Hfp & Hfv). fold cap pd in Hfc, Hfp, Hfv.
  unfold thread_step, thread_step_nat. cbv zeta.
  destruct (c_phase s !! i) as [p|] eqn:Hi; [|reflexivity].
  destruct (jobs !! i) as [j|] eqn:Hj; [|destruct p; reflexivity].
  pose proof (lookup_lt_Some _ _ _ Hj) as Hij.
  pose proof (ci_e2n_len s Hs) as He. pose proof (ci_keys_len s Hs) as Hk.
  pose proof (ci_pd s Hs) as Hpd. pose proof (ci_vd s Hs) as Hvd.
  destruct p as [h k|h|h c|h c sl|]; try reflexivity.
  - destruct (probing_bucket s i h k Hs Hi) as [Hc0 Hhc].
    rewrite (read_at_ok _ _ _ (list_lookup_lookup_total_lt (ht_entry2nid (c_table s)) h
               ltac:(rewrite He; exact Hhc))).
    cbv beta iota.
    destruct (decide (ht_entry2nid (c_table s) !!! h = -2)) as [H2|H2]; [reflexivity|].
    destruct (decide (ht_entry2nid (c_table s) !!! h = -1)) as [H1|H1].
    + rewrite write_at_ok by (rewrite He; exact Hhc). reflexivity.
    + destruct (owner_of s h Hs Hhc H1 H2) as (o & Ho & Hol).
      rewrite Ho, Nat2Z.id. rewrite key_matches_ok.
      * destruct (key_matches_nat _ _ _); reflexivity.
      * rewrite Hk, Hpd. nia.
      * rewrite Hpd. nia.
  - rewrite (Hnid i j Hj). destruct (ci_locked s Hs i h Hi) as [Hhc _].
    rewrite to_int_small by lia. rewrite Hpd, write_key_ok by (rewrite ?Hk; nia).
    cbv beta iota.
    rewrite write_at_ok by (cbn [with_keys ht_entry2nid]; rewrite He; exact Hhc).
    reflexivity.
  - destruct (settled s i h c Hs (or_introl Hi)) as (o & Ho & Hol & Hhc).
    assert (Hoff : value_offset (c_table s) h = Z.of_nat (o * ht_vd t0)).
    { unfold value_offset. rewrite Ho, Hvd. lia. }
    rewrite (lookupValue_ok (c_table s) h o) by first [rewrite He; exact Hhc|exact Ho|rewrite Hvd; nia].
    cbv beta iota.
    rewrite add_row_ok.
    + reflexivity.
    + rewrite Hoff. lia.
    + rewrite Hoff, Nat2Z.id, (ci_vals_len s Hs), Hvd. nia.
Qed.

Lemma cinv_step s i s' :
  cinv s -> thread_step jobs i s = Some s' -> cinv s'.
Proof.
  intros Hs Hst. rewrite (thread_step_fits s i Hs) in Hst. unfold thread_step_nat in Hst.
  destruct (c_phase s !! i) as [p|] eqn:Hi; [|discriminate].
  destruct (jobs !! i) as [j|] eqn:Hj; [|destruct p; discriminate].
  destruct p as [h k|h|h c|h c sl|].
  - destruct (decide (ht_entry2nid (c_table s) !!! h = -2)) as [H2|H2].
    + injection Hst as <-. apply step_skip with (k := k); [exact Hs|exact Hi|lia].
    + destruct (decide (ht_entry2nid (c_table s) !!! h = -1)) as [H1|H1].
      * injection Hst as <-. apply step_claim with (k := k); assumption.
      * destruct (key_matches_nat (c_table s) (Z.to_nat (ht_entry2nid (c_table s) !!! h)) (j_key j)) eqn:Hm.
        -- injection Hst as <-. apply step_match with (k := k) (j := j); assumption.
        -- injection Hst as <-. apply step_skip with (k := k); assumption.
  - injection Hst as <-. apply step_publish; assumption.
  - injection Hst as <-. apply step_add; assumption.
  - discriminate.
  - discriminate.
Qed.

Lemma cinv_run sched s s' :
  cinv s -> run jobs sched s = Some s' -> cinv s'.
Proof.
  revert s. induction sched as [|i sched IH]; intros s Hs Hr; cbn in Hr.
  - injection Hr as <-. exact Hs.
  - destruct (thread_step jobs i s) as [s1|] eqn:Hst; [|discriminate].
    apply (IH s1); [apply (cinv_step s i s1 Hs Hst)|exact Hr].
Qed.

(** The buckets a probing thread has passed are claimed by pairwise
    distinct other threads: it has passed fewer buckets than there are
    threads. *)
Lemma probing_count s i h k :
  cinv s -> c_phase s !! i = Some (Probing h k) -> (k < length jobs)%nat.
Proof.
  intros Hs Hi. destruct (ci_probing s Hs i h k Hi) as (j & Hj & _ & Hm).
  set (st := start_bucket t0 (j_key j)) in *.
  pose proof (lookup_lt_Some _ _ _ Hi) as Hil. rewrite (ci_len s Hs) in Hil.
  destruct (Nat.lt_ge_cases k (length jobs)) as [Hlt|Hge]; [exact Hlt|exfalso].
  assert (Hacc : forall k', (k' <= length jobs)%nat ->
            exists L, length L = k' /\ List.NoDup L /\
              forall o, In o L -> (o < length jobs)%nat /\ o <> i /\
                exists p m, c_phase s !! o = Some p /\ (m < k')%nat /\ claims p ((st + m) mod cap)%nat).
  { induction k' as [|k' IH]; intros Hk'.
    - exists []. split; [reflexivity|]. split; [constructor|]. intros o [].
    - destruct (IH ltac:(lia)) as (L & HL & Hnd & HLo).
      destruct (Hm k' ltac:(lia)) as (o & p & Ho & Hoi & Hc).
      exists (o :: L). split; [cbn; lia|]. split.
      + constructor; [|exact Hnd]. intros Hin.
        destruct (HLo o Hin) as (_ & _ & p2 & m2 & Ho2 & Hm2 & Hc2).
        rewrite Ho in Ho2. injection Ho2 as <-.
        pose proof (claims_one p _ _ Hc Hc2) as Heq.
        apply (mod_shift_inj st m2 k' cap); [unfold cap; lia|symmetry; exact Heq].
      + intros o' [<-|Hin].
        * split; [apply lookup_lt_Some in Ho; rewrite (ci_len s Hs) in Ho; exact Ho|].
          split; [exact Hoi|]. exists p, k'. split; [exact Ho|]. split; [lia|exact Hc].
        * destruct (HLo o' Hin) as (Ho'1 & Ho'2 & p2 & m2 & Ho2 & Hm2 & Hc2).
          split; [exact Ho'1|]. split; [exact Ho'2|]. exists p2, m2. auto. }
  destruct (Hacc (length jobs) (le_n _)) as (L & HL & Hnd & HLo).
  assert (Hincl : incl L (remove Nat.eq_dec i (seq 0 (length jobs)))).
  { intros o Hin. destruct (HLo o Hin) as (Ho1 & Ho2 & _).
    apply in_in_remove; [exact Ho2|]. apply in_seq. lia. }
  pose proof (NoDup_incl_length Hnd Hincl) as Hlen.
  assert (Hrm : (length (remove Nat.eq_dec i (seq 0 (length jobs))) < length (seq 0 (length jobs)))%nat).
  { apply remove_length_lt. apply in_seq. lia. }
  rewrite length_seq in Hrm. lia.
Qed.

(** No thread is ever blocked: until its contribution is added it can
    take a step. *)
Lemma thread_progress s i :
  cinv s -> (i < length jobs)%nat ->
  (exists s', thread_step jobs i s = Some s') \/
  exists h c sl, c_phase s !! i = Some (Added h c sl).
Proof.
  intros Hs Hi.
  destruct (lookup_lt_is_Some_2 (c_phase s) i) as [p Hp]; [rewrite (ci_len s Hs); exact Hi|].
  destruct (lookup_lt_is_Some_2 jobs i Hi) as [j Hj].
  rewrite (thread_step_fits s i Hs).
  destruct p as [h k|h|h c|h c sl|]; [left|left|left|right; eauto|].
  - unfold thread_step_nat. rewrite Hp, Hj.
    destruct (decide _); [eexists; reflexivity|].
    destruct (decide _); [eexists; reflexivity|].
    destruct (key_matches_nat _ _ _); eexists; reflexivity.
  - unfold thread_step_nat. rewrite Hp, Hj. eexists; reflexivity.
  - unfold thread_step_nat. rewrite Hp, Hj. eexists; reflexivity.
  - exfalso. exact (ci_nofault s Hs i Hp).
Qed.


Lemma thread_step_self s i s' :
  cinv s -> thread_step jobs i s = Some s' ->
  (remaining_at (length jobs) s' i < remaining_at (length jobs) s i)%nat.
Proof.
  intros Hs Hst. rewrite (thread_step_fits s i Hs) in Hst.
  unfold thread_step_nat in Hst. unfold remaining_at.
  destruct (c_phase s !! i) as [p|] eqn:Hi; [|discriminate].
  pose proof (lookup_lt_Some _ _ _ Hi) as Hil.
  destruct (jobs !! i) as [j|] eqn:Hj; [|destruct p; discriminate].
  destruct p as [h k|h|h c|h c sl|].
  - pose proof (probing_count s i h k Hs Hi) as Hk.
    destruct (decide _) as [H2|H2]; [|destruct (decide _) as [H1|H1];
      [|destruct (key_matches_nat _ _ _) eqn:Hm]];
      injection Hst as <-; cbn [c_phase]; rewrite list_lookup_insert_eq by exact Hil;
      cbn [remaining]; lia.
  - injection Hst as <-. cbn [c_phase]. rewrite list_lookup_insert_eq by exact Hil. cbn. lia.
  - injection Hst as <-. cbn [c_phase]. rewrite list_lookup_insert_eq by exact Hil. cbn. lia.
  - discriminate.
  - discriminate.
Qed.

(** Every step of thread [i] lowers its remaining count: in any run it is
    scheduled at most [length jobs + 2] times. *)
Lemma run_steps_bounded sched s s' i c :
  cinv s -> (c + remaining_at (length jobs) s i <= length jobs + 2)%nat ->
  run jobs sched s = Some s' ->
  (c + count_occ Nat.eq_dec sched i + remaining_at (length jobs) s' i <= length jobs + 2)%nat.
Proof.
  revert s c. induction sched as [|i' sched IH]; intros s c Hs Hc Hr; cbn in Hr.
  - injection Hr as <-. cbn. lia.
  - destruct (thread_step jobs i' s) as [s1|] eqn:Hst; [|discriminate].
    pose proof (cinv_step s i' s1 Hs Hst) as Hs1.
    cbn [count_occ]. destruct (Nat.eq_dec i' i) as [->|Hne].
    + pose proof (thread_step_self s i s1 Hs Hst).
      specialize (IH s1 (S c) Hs1 ltac:(lia) Hr). lia.
    + assert (Hsame : remaining_at (length jobs) s1 i = remaining_at (length jobs) s i).
      { unfold remaining_at. rewrite (thread_step_other jobs i i' s s1 Hst).
        - reflexivity.
        - intros ->. apply Hne. reflexivity. }
      rewrite <- Hsame in Hc. exact (IH s1 c Hs1 Hc Hr).
Qed.

Lemma run_from_init_bounded sched s' i :
  run jobs sched (init_state t0 jobs) = Some s' ->
  (count_occ Nat.eq_dec sched i <= length jobs + 2)%nat.
Proof.
  intros Hr.
  assert (H0 : (0 + remaining_at (length jobs) (init_state t0 jobs) i <= length jobs + 2)%nat).
  { unfold remaining_at, init_state. cbn [c_phase]. rewrite list_lookup_fmap.
    destruct (jobs !! i); cbn; lia. }
  pose proof (run_steps_bounded sched _ s' i 0 cinv_init H0 Hr). lia.
Qed.

Lemma cinv_reach sched s :
  run jobs sched (init_state t0 jobs) = Some s -> cinv s.
Proof. intros Hr. exact (cinv_run sched _ s cinv_init Hr). Qed.


End ConcurrentInsert.

Lemma point_jobs_lookup pd canonical g value n r :
  (r <= pd)%nat ->
  point_jobs pd canonical g value n !! r =
  Some {| j_key := corner_key pd canonical g r; j_nid := (n * (pd + 1) + r)%nat;
          j_w := qnth (g_bary g) r; j_val := value |}.
Proof.
  intros Hr. unfold point_jobs. rewrite map_lookup, lookup_seq_lt by lia. reflexivity.
Qed.

Lemma splat_jobs_prefix sf canonical src ref m jobs :
  kfold (splat_jobs_step sf canonical src ref) (seq 0 m) [] = KOk jobs ->
  length jobs = (m * (u16 (t_cols ref) + 1))%nat /\
  forall n r, (n < m)%nat -> (r <= u16 (t_cols ref))%nat ->
    exists pos value, t_row ref n = KOk pos /\ t_row src n = KOk value /\
      jobs !! (n * (u16 (t_cols ref) + 1) + r)%nat =
      Some {| j_key := corner_key (u16 (t_cols ref)) canonical
                         (splat_geometry (u16 (t_cols ref)) sf pos) r;
              j_nid := (n * (u16 (t_cols ref) + 1) + r)%nat;
              j_w := qnth (g_bary (splat_geometry (u16 (t_cols ref)) sf pos)) r;
              j_val := value |}.
Proof.
  set (pd := u16 (t_cols ref)).
  revert jobs. induction m as [|m IH]; intros jobs Hk.
  - cbn in Hk. injection Hk as <-. split; [reflexivity|]. intros n r Hn. lia.
  - rewrite seq_S, kfold_app in Hk. cbn [Nat.add] in Hk.
    destruct (kfold _ (seq 0 m) []) as [acc| |] eqn:Hacc; cbn [mbind kres_bind] in Hk; try discriminate.
    destruct (IH acc eq_refl) as [Hlen Hpre].
    cbn [kfold] in Hk. unfold splat_jobs_step in Hk. fold pd in Hk.
    destruct (t_row ref m) as [pos| |] eqn:Hpos; cbn [mbind kres_bind] in Hk; try discriminate.
    destruct (t_row src m) as [value| |] eqn:Hval; cbn [mbind kres_bind] in Hk; try discriminate.
    destruct (decide (pd = 0%nat)) as [_|Hpd0]; [discriminate|].
    destruct (decide (pd = 65535%nat)) as [_|Hpd1]; [discriminate|].
    destruct (negb (ranks_in_range pd (splat_geometry pd sf pos))); [discriminate|].
    cbn [negb mret kres_ret] in Hk. injection Hk as <-.
    split; [rewrite length_app, Hlen; unfold point_jobs; rewrite length_map, length_seq; lia|].
    intros n r Hn Hr. destruct (decide (n < m)%nat) as [Hnm|Hnm].
    + destruct (Hpre n r Hnm Hr) as (pos' & value' & Hp & Hv & Hl).
      exists pos', value'. split; [exact Hp|]. split; [exact Hv|].
      rewrite lookup_app_l by (rewrite Hlen; nia). exact Hl.
    + assert (n = m) as -> by lia. exists pos, value. split; [exact Hpos|]. split; [exact Hval|].
      rewrite lookup_app_r by (rewrite Hlen; lia). rewrite Hlen.
      replace (m * (pd + 1) + r - m * (pd + 1))%nat with r by lia.
      apply point_jobs_lookup. exact Hr.
Qed.

Lemma splat_jobs_spec sf canonical src ref jobs :
  splat_jobs sf canonical src ref = KOk jobs ->
  length jobs = (t_rows ref * (u16 (t_cols ref) + 1))%nat /\
  (forall i j, jobs !! i = Some j -> j_nid j = i) /\
  forall n r, (n < t_rows ref)%nat -> (r <= u16 (t_cols ref))%nat ->
    exists j, jobs !! (n * (u16 (t_cols ref) + 1) + r)%nat = Some j /\
      j_nid j = (n * (u16 (t_cols ref) + 1) + r)%nat.
Proof.
  intros Hk. destruct (splat_jobs_prefix sf canonical src ref (t_rows ref) jobs Hk) as [Hlen Hpre].
  set (pd := u16 (t_cols ref)) in *.
  split; [exact Hlen|]. split.
  - intros i j Hj. pose proof (lookup_lt_Some _ _ _ Hj) as Hi. rewrite Hlen in Hi.
    pose proof (Nat.div_mod_eq i (pd + 1)%nat) as Hdm.
    pose proof (Nat.mod_upper_bound i (pd + 1)%nat ltac:(lia)) as Hmod.
    assert (Hn : (i / (pd + 1) < t_rows ref)%nat).
    { apply Nat.Div0.div_lt_upper_bound. lia. }
    destruct (Hpre (i / (pd + 1))%nat (i mod (pd + 1))%nat Hn ltac:(lia)) as (pos & value & _ & _ & Hl).
    replace (i / (pd + 1) * (pd + 1) + i mod (pd + 1))%nat with i in Hl by lia.
    rewrite Hj in Hl. injection Hl as ->. cbn. lia.
  - intros n r Hn Hr. destruct (Hpre n r Hn Hr) as (pos & value & _ & _ & Hl).
    eexists. split; [exact Hl|reflexivity].
Qed.

Lemma splat_jobs_fit sf canonical src ref jobs :
  t_rows src = t_rows ref -> splat_jobs sf canonical src ref = KOk jobs ->
  let t0 := HashTableGPU (u16 (t_cols ref)) (u16 (t_cols src)) (t_rows src) in
  (forall i j, jobs !! i = Some j -> j_nid j = i) /\
  length jobs = ht_capacity t0 /\
  ht_entry2nid t0 = replicate (ht_capacity t0) (-1) /\
  length (ht_keys t0) = (ht_capacity t0 * ht_pd t0)%nat /\
  length (ht_values t0) = (ht_capacity t0 * ht_vd t0)%nat.
Proof.
  intros Hrows Hk t0. destruct (splat_jobs_spec sf canonical src ref jobs Hk) as (Hlen & Hnid & _).
  split; [exact Hnid|]. split; [unfold t0, HashTableGPU; cbn; rewrite Hlen, Hrows; reflexivity|].
  split; [reflexivity|]. unfold t0, HashTableGPU; cbn. split; apply length_replicate.
Qed.

(** Two points at position [0.0] with [pd = vd = 1]: both produce the keys
    [[0]] (corner 0) and [[1]] (corner 1), inserted by threads [0, 2] and
    [1, 3].  In [race_schedule], thread 2 meets bucket 0 while thread 0
    holds its lock, passes it, and takes bucket 1. *)
Definition featC : tensor := {| t_rows := 2; t_cols := 1; t_data := [1%Q; 2%Q] |}.
Definition posC : tensor := {| t_rows := 2; t_cols := 1; t_data := [0%Q; 0%Q] |}.
Definition race_schedule : list nat := [0; 2; 2; 0; 2; 0; 2; 1; 1; 1; 3; 3]%nat.
Definition tableC : hash_table :=
  HashTableGPU (u16 (t_cols posC)) (u16 (t_cols featC)) (t_rows featC).
Definition jobsC : list job :=
  match splat_jobs (lattice_scale_factors libm_sqrt (t_cols posC)) (canonical_table (t_cols posC))
          featC posC with
  | KOk jobs => jobs
  | _ => []
  end.
Definition final_state (sched : list nat) : cstate :=
  match run jobsC sched (init_state tableC jobsC) with
  | Some s => s
  | None => init_state tableC jobsC
  end.




(** The slice contributions of the hand-filled table, as a function. *)
Definition witness_contrib (n j r : nat) : Q :=
  match slice_contrib witness_table witness_replay n j r with KOk q => q | _ => 0%Q end.

(* ================================================================== *)
(** * Claims *)

(** C9 (amended): for [1 <= pd <= 32767] (so that every entry fits the
    [int16_t] table), row [r] of the canonical table holds [pd+1-r] entries
    equal to [r] followed by [r] entries equal to [r-(pd+1)]; every row sums
    to zero; and adding row [r], permuted by a rank permutation, to a
    zero-sum vector [y] gives a zero-sum vector. *)
Theorem canonical_table_zero_sum (pd : nat) :
  (1 <= pd)%nat -> Z.of_nat pd <= 32767 ->
  forall r, (r <= pd)%nat ->
    (forall j, (j <= pd)%nat ->
       canonical_table pd !! (r * (pd + 1) + j)%nat = Some (canonical_entry pd r j)) /\
    Zsum (map (canonical_entry pd r) (seq 0 (pd + 1))) = 0 /\
    (forall (y rank : list Z),
       length y = (pd + 1)%nat ->
       Permutation rank (map Z.of_nat (seq 0 (pd + 1))) ->
       Zsum y = 0 ->
       Zsum (zip_with (fun yi ri => yi + canonical_table pd !!! (r * (pd + 1) + Z.to_nat ri)%nat)
               y rank) = 0).
Proof.
  intros Hpd1 Hpd r Hr.
  assert (Hlk : forall j, (j <= pd)%nat ->
            canonical_table pd !! (r * (pd + 1) + j)%nat = Some (canonical_entry pd r j)).
  { intros j Hj. rewrite canonical_lookup by lia.
    rewrite wrap16_id by (apply canonical_entry_i16; lia). reflexivity. }
  split; [exact Hlk|]. split; [apply canonical_row_sum; exact Hr|].
  intros y rank Hy Hperm Hsum.
  rewrite Zsum_zip_add.
  2: { rewrite (Permutation_length Hperm), length_map, length_seq. exact Hy. }
  rewrite (Zsum_perm _ _ (Permutation_map _ Hperm)), map_map.
  rewrite (map_ext_in _ (canonical_entry pd r)).
  - rewrite canonical_row_sum by exact Hr. lia.
  - intros j Hj. apply in_seq in Hj.
    rewrite Nat2Z.id. apply list_lookup_total_correct. apply Hlk. lia.
Qed.

(** Witness of C9 at [pd = 2], row [r = 1]. *)
Lemma canonical_table_zero_sum_witness :
  ((1 <= 2)%nat /\ Z.of_nat 2 <= 32767 /\ (1 <= 2)%nat) /\
    (forall j, (j <= 2)%nat ->
       canonical_table 2 !! (1 * (2 + 1) + j)%nat = Some (canonical_entry 2 1 j)) /\
    Zsum (map (canonical_entry 2 1) (seq 0 (2 + 1))) = 0 /\
    (forall (y rank : list Z),
       length y = (2 + 1)%nat ->
       Permutation rank (map Z.of_nat (seq 0 (2 + 1))) ->
       Zsum y = 0 ->
       Zsum (zip_with (fun yi ri => yi + canonical_table 2 !!! (1 * (2 + 1) + Z.to_nat ri)%nat)
               y rank) = 0).
Proof.
  split; [split; [lia|split; lia]|].
  apply (canonical_table_zero_sum 2); lia.
Defined.

(** C9 counterexample: for [pd = 32768] the last row's first entry is
    [i = 32768] stored into an [int16_t]: it wraps to [-32768] instead of
    being equal to the row index. *)
Lemma canonical_table_row_wraps :
  canonical_table 32768 !! (32768 * (32768 + 1) + 0)%nat = Some (-32768) /\
  canonical_entry 32768 32768 0 = 32768.
Proof.
  split.
  - rewrite canonical_lookup by (apply Nat.le_refl || apply Nat.le_0_l).
    vm_compute. reflexivity.
  - vm_compute. reflexivity.
Qed.

(** C10 (amended): for [pd <= 32767] the ranks computed by the pairwise
    ranking loop are a permutation of [0 .. pd].  If moreover [1 <= pd] and
    the rounded coordinates [round(elevated[i] / (pd + 1))] of the point
    all fit [int16_t], the ranks after the [h]-correction are again a
    permutation of [0 .. pd]; so the indices [pd - rank[i]] and
    [pd + 1 - rank[i]] lie in the row of [pd + 2] weights and
    [r * (pd + 1) + rank[i]] lies in the canonical table for every corner
    [r <= pd]. *)
Theorem splat_rank_permutation pd sf pos :
  Z.of_nat pd <= 32767 ->
  let g := splat_geometry pd sf pos in
  Permutation (g_rank0 g) (map Z.of_nat (seq 0 (pd + 1))) /\
  ((1 <= pd)%nat -> rounded_fits pd sf pos = true ->
   Permutation (g_rank g) (map Z.of_nat (seq 0 (pd + 1))) /\
   forall i, (i <= pd)%nat ->
     0 <= g_rank g !!! i <= Z.of_nat pd /\
     0 <= Z.of_nat pd - g_rank g !!! i < Z.of_nat pd + 2 /\
     0 <= Z.of_nat pd + 1 - g_rank g !!! i < Z.of_nat pd + 2 /\
     forall r, (r <= pd)%nat ->
       0 <= Z.of_nat r * (Z.of_nat pd + 1) + g_rank g !!! i <
            Z.of_nat (length (canonical_table pd))).
Proof.
  intros Hpd g. split.
  - set (d := (fun i => qnth (elevate pd pos sf) i -
                        inject_Z (map (round_y pd) (elevate pd pos sf) !!! i))%Q).
    destruct (ranking_spec d pd) as [Hl0 Hk0].
    unfold g. rewrite splat_geometry_rank0. fold d.
    rewrite (list_eq_seq _ (fun k => Z.of_nat (rank_count d pd k)) (pd + 1) Hl0).
    + apply rank_count_perm.
    + intros k Hk. rewrite Hk0 by lia.
      rewrite wrap16_id; [reflexivity|].
      pose proof (rank_count_le d pd k ltac:(lia)). unfold in_i16. lia.
  - intros Hpd1 Hfit.
    destruct (splat_rank_closed pd sf pos Hpd1 Hpd Hfit) as [_ [Hr Hh]].
    fold g in Hr, Hh.
    set (d := (fun i => qnth (elevate pd pos sf) i -
                        inject_Z (map (round_y pd) (elevate pd pos sf) !!! i))%Q) in *.
    set (P := Z.of_nat pd + 1) in *.
    assert (Hrange : forall k, (k <= pd)%nat ->
              0 <= (Z.of_nat (rank_count d pd k) + g_h g) mod P < P).
    { intros k Hk. apply Z.mod_pos_bound. lia. }
    split.
    + rewrite Hr. apply perm_of_range.
      * apply NoDup_map_inj_in; [|apply List.seq_NoDup].
        intros a b Ha Hb Hab. apply in_seq in Ha, Hb.
        apply (rank_count_inj d pd); [lia|lia|].
        pose proof (rank_count_le d pd a ltac:(lia)).
        pose proof (rank_count_le d pd b ltac:(lia)).
        apply Nat2Z.inj. apply (mod_add_inj P (g_h g)); [lia|lia|lia|exact Hab].
      * apply List.Forall_forall. intros z Hz. apply in_map_iff in Hz as [k [<- Hk]].
        apply in_seq in Hk. specialize (Hrange k ltac:(lia)). unfold P in *. lia.
      * rewrite length_map, length_seq. reflexivity.
    + intros i Hi.
      assert (Hgi : g_rank g !!! i = (Z.of_nat (rank_count d pd i) + g_h g) mod P).
      { apply list_lookup_total_correct. rewrite Hr, map_lookup, lookup_seq_lt by lia.
        reflexivity. }
      rewrite Hgi. specialize (Hrange i Hi).
      split; [lia|]. split; [lia|]. split; [lia|].
      intros r Hr'. rewrite canonical_table_length.
      unfold P in *. rewrite Nat2Z.inj_mul, Nat2Z.inj_add. nia.
Qed.

(** Witness of C10 at [pd = 2], [pos = (1/2, 3/4)]. *)
Lemma splat_rank_permutation_witness :
  (Z.of_nat 2 <= 32767 /\ (1 <= 2)%nat /\ rounded_fits 2 far_sf near_pos = true) /\
  let g := splat_geometry 2 far_sf near_pos in
  Permutation (g_rank0 g) (map Z.of_nat (seq 0 (2 + 1))) /\
  Permutation (g_rank g) (map Z.of_nat (seq 0 (2 + 1))) /\
  forall i, (i <= 2)%nat ->
    0 <= g_rank g !!! i <= Z.of_nat 2 /\
    0 <= Z.of_nat 2 - g_rank g !!! i < Z.of_nat 2 + 2 /\
    0 <= Z.of_nat 2 + 1 - g_rank g !!! i < Z.of_nat 2 + 2 /\
    forall r, (r <= 2)%nat ->
      0 <= Z.of_nat r * (Z.of_nat 2 + 1) + g_rank g !!! i <
           Z.of_nat (length (canonical_table 2)).
Proof.
  split; [split; [lia|split; [lia|vm_compute; reflexivity]]|].
  destruct (splat_rank_permutation 2 far_sf near_pos ltac:(lia)) as [H0 H1].
  split; [exact H0|]. apply H1; [lia|vm_compute; reflexivity].
Defined.

(** C10 counterexample: at [pd = 2] with positions [(0, 49161)] the second
    rounded coordinate leaves the [int16_t] range; the ranks after the
    correction are [3, 4, 5], outside [0, pd]. *)
Lemma splat_rank_out_of_range :
  rounded_fits 2 far_sf far_pos = false /\
  g_rank0 (splat_geometry 2 far_sf far_pos) = [0; 1; 2] /\
  g_rank (splat_geometry 2 far_sf far_pos) = [3; 4; 5].
Proof. vm_compute. split; [reflexivity|split; reflexivity]. Qed.

(** C3 (amended): under the hypotheses of the rank property ([1 <= pd <=
    32767], every rounded coordinate fits [int16_t]), the weight row of a
    point has [pd + 2] entries and, in exact arithmetic,
    [bary[0] + ... + bary[pd] = 1].  When a rounded coordinate overflows,
    the ranks can leave [0, pd] and the sum can differ from 1. *)
Theorem splat_barycentric_sum pd sf pos :
  (1 <= pd)%nat -> Z.of_nat pd <= 32767 -> rounded_fits pd sf pos = true ->
  let g := splat_geometry pd sf pos in
  length (g_bary g) = (pd + 2)%nat /\
  (Qsum (map (qnth (g_bary g)) (seq 0 (pd + 1))) == 1)%Q.
Proof.
  intros Hpd1 Hpd Hfit g.
  destruct (splat_rank_closed pd sf pos Hpd1 Hpd Hfit) as [_ [Hr _]].
  fold g in Hr.
  pose proof (splat_geometry_bary pd sf pos) as Hb. fold g in Hb. rewrite Hb.
  apply barycentric_sum. intros i Hi.
  assert (Hgi : g_rank g !!! i =
            (Z.of_nat (rank_count (fun i => qnth (elevate pd pos sf) i -
               inject_Z (map (round_y pd) (elevate pd pos sf) !!! i))%Q pd i) + g_h g)
            mod (Z.of_nat pd + 1)).
  { apply list_lookup_total_correct. rewrite Hr, map_lookup, lookup_seq_lt by lia.
    reflexivity. }
  rewrite Hgi. pose proof (Z.mod_pos_bound
    (Z.of_nat (rank_count (fun i => qnth (elevate pd pos sf) i -
       inject_Z (map (round_y pd) (elevate pd pos sf) !!! i))%Q pd i) + g_h g)
    (Z.of_nat pd + 1) ltac:(lia)). lia.
Qed.

(** Witness of C3 at [pd = 2], [pos = (1/2, 3/4)]. *)
Lemma splat_barycentric_sum_witness :
  ((1 <= 2)%nat /\ Z.of_nat 2 <= 32767 /\ rounded_fits 2 far_sf near_pos = true) /\
  let g := splat_geometry 2 far_sf near_pos in
  length (g_bary g) = (2 + 2)%nat /\
  (Qsum (map (qnth (g_bary g)) (seq 0 (2 + 1))) == 1)%Q.
Proof.
  split; [split; [lia|split; [lia|vm_compute; reflexivity]]|].
  apply splat_barycentric_sum; [lia|lia|vm_compute; reflexivity].
Defined.

(** C3 counterexample: at the point of the C10 counterexample the ranks
    leave [0, pd], the writes [bary[pd - rank[i]]] fall outside the row and
    [bary[0] + bary[1] + bary[2]] is not 1. *)
Lemma splat_barycentric_not_one :
  ~ (Qsum (map (qnth (g_bary (splat_geometry 2 far_sf far_pos))) (seq 0 (2 + 1))) == 1)%Q.
Proof.
  intros H. apply Qeq_bool_iff in H. vm_compute in H. discriminate H.
Qed.

(** C7: the slice stage starts from [zeros_like src] and, for every point
    [n < N] and channel [j < vd], the output holds the sum over the [pd+1]
    corners [r] of [c n j r], the contribution of [slice_contrib]:
    [replay[n*(pd+1)+r].weight] times the accumulator
    [values[entry2nid[replay[...].entry] * vd + j]] divided by [1 + 2^-pd];
    channels [j >= vd] keep their initial zero.  The premises: one row per
    point, [0 < vd] not wider than the features, [pd <> 65535] (so that
    [pd + 1] does not wrap in [uint16_t]), the thread indices fit [int],
    and every contribution is read inside the buffers, with no [int]
    overflow. *)
Theorem slice_accumulates (t : hash_table) (replay : replay_buffer) (src : tensor)
    (c : nat -> nat -> nat -> Q) :
  t_rows src = ht_N t -> (0 < ht_vd t <= t_cols src)%nat -> ht_pd t <> 65535%nat ->
  Z.of_nat (ht_N t) + 1024 <= 2 ^ 32 ->
  (forall n j r, (n < ht_N t)%nat -> (j < ht_vd t)%nat -> (r <= ht_pd t)%nat ->
     slice_contrib t replay n j r = KOk (c n j r)) ->
  exists out, slice t replay src = KOk out /\
    t_rows out = t_rows src /\ t_cols out = t_cols src /\
    length (t_data out) = (t_rows src * t_cols src)%nat /\
    forall n j, (n < t_rows src)%nat -> (j < t_cols src)%nat ->
      (qnth (t_data out) (n * t_cols src + j) ==
       if decide (j < ht_vd t)%nat
       then Qsum (map (c n j) (seq 0 (ht_pd t + 1))) else 0)%Q.
Proof.
  intros Hrows Hvd Hpd HN Hc. apply slice_kernel_spec; assumption.
Qed.

(** Witness of C7 on a hand-filled table with [pd = vd = N = 1]. *)
Lemma slice_accumulates_witness :
  (t_rows featB = ht_N witness_table /\ (0 < ht_vd witness_table <= t_cols featB)%nat /\
   ht_pd witness_table <> 65535%nat /\ Z.of_nat (ht_N witness_table) + 1024 <= 2 ^ 32 /\
   (forall n j r, (n < ht_N witness_table)%nat -> (j < ht_vd witness_table)%nat ->
      (r <= ht_pd witness_table)%nat ->
      slice_contrib witness_table witness_replay n j r = KOk (witness_contrib n j r))) /\
  exists out, slice witness_table witness_replay featB = KOk out /\
    t_rows out = t_rows featB /\ t_cols out = t_cols featB /\
    length (t_data out) = (t_rows featB * t_cols featB)%nat /\
    forall n j, (n < t_rows featB)%nat -> (j < t_cols featB)%nat ->
      (qnth (t_data out) (n * t_cols featB + j) ==
       if decide (j < ht_vd witness_table)%nat
       then Qsum (map (witness_contrib n j) (seq 0 (ht_pd witness_table + 1))) else 0)%Q.
Proof.
  assert (Hc : forall n j r, (n < ht_N witness_table)%nat -> (j < ht_vd witness_table)%nat ->
             (r <= ht_pd witness_table)%nat ->
             slice_contrib witness_table witness_replay n j r = KOk (witness_contrib n j r)).
  { intros n j r Hn Hj Hr. cbn in Hn, Hj, Hr.
    destruct n as [|n]; [|lia]. destruct j as [|j]; [|lia].
    destruct r as [|[|r]]; [vm_compute; reflexivity|vm_compute; reflexivity|lia]. }
  assert (Hpd : ht_pd witness_table <> 65535%nat) by (apply Nat.eqb_neq; vm_compute; reflexivity).
  split; [split; [reflexivity|split; [cbn; lia|split; [exact Hpd|split; [cbn; lia|exact Hc]]]]|].
  apply slice_accumulates; [reflexivity|cbn; lia|exact Hpd|cbn; lia|exact Hc].
Defined.

(** C2 (code bug): scenario B ([pd = vd = 1], one point at position [0.0]
    with feature [1.0], the square root of the C library).  The splat
    kernel succeeds; run on the table it leaves behind, the slice stage
    would give [2/3], not [1.0]: the only occupied bucket holds [1.0], the
    corner weights are [1] and [0], and the slice divides by [1 + 2^-1].
    But [filter] does not get there: the by-value copy of [hashTable]
    passed to [splat_kernel] frees the table's three buffers when it is
    destroyed, and the slice kernel then reads freed memory. *)
Theorem filter_scenario_B :
  (exists t replay out,
     splat_kernel (lattice_scale_factors libm_sqrt 1) (canonical_table 1) featB posB 1
       (HashTableGPU 1 1 1, replicate 2 None) = KOk (t, replay) /\
     slice t replay featB = KOk out /\ (qnth (t_data out) 0 == 2 # 3)%Q) /\
  permutohedral_cuda_filter libm_sqrt featB posB =
    (map Malloc [4; 16; 8; 8; 8; 32] ++
     [LaunchSplat; Free; Free; Free; Synchronize; LaunchSlice], Undefined).
Proof.
  split.
  - do 3 eexists. split; [vm_compute; reflexivity|].
    split; [vm_compute; reflexivity|]. vm_compute. reflexivity.
  - vm_compute. reflexivity.
Qed.

(** C6 (code bug): [permutohedral_cuda_filter] never returns a buffer,
    whatever its inputs.  A zero dimension, a failed allocation or the
    [int] overflow of [(pd + 1) * (pd + 1)] stops it before the kernels;
    otherwise the splat kernel runs on a by-value copy of the table whose
    destructor frees the table's buffers, and the slice stage reads them. *)
Theorem filter_never_returns (sqrt : Q -> Q) (src ref out : tensor) :
  (permutohedral_cuda_filter sqrt src ref).2 <> Returned out.
Proof.
  unfold permutohedral_cuda_filter.
  set (pd := u16 (t_cols ref)). set (vd := u16 (t_cols src)). set (N := t_rows src).
  destruct (run_mallocs (table_allocations pd vd N) []) as [tr ok] eqn:Hm.
  destruct ok; cbn [negb]; [|discriminate].
  destruct (int_fits _); cbn [negb]; [|discriminate].
  destruct (run_mallocs _ tr) as [tr2 ok2]. destruct ok2; cbn [negb]; [|discriminate].
  assert (HN : (1 <= N)%nat).
  { destruct N as [|N']; [|lia]. exfalso.
    assert (Hz : In 0 (table_allocations pd vd 0)) by (left; reflexivity).
    pose proof (run_mallocs_zero _ [] Hz) as Hf. rewrite Hm in Hf. discriminate Hf. }
  unfold filter.
  destruct (splat_kernel _ _ _ _ _ _) as [[t replay]| |]; [|discriminate|discriminate].
  rewrite slice_freed_table by (cbn; exact HN). discriminate.
Qed.




(** C1 (code bug): two inserts of a bit-identical key can take two
    buckets.  In scenario C (two points at [0.0], [pd = vd = 1]) threads
    [0] and [2] both insert the key [[0]]; under [race_schedule] thread 0
    returns bucket [0] and adds at offset [0], thread 2 returns bucket [1]
    and adds at offset [2]: the contributions of the two points land in
    two accumulator slots. *)
Theorem insert_race_splits_key :
  splat_jobs (lattice_scale_factors libm_sqrt (t_cols posC)) (canonical_table (t_cols posC))
    featC posC = KOk jobsC /\
  run jobsC race_schedule (init_state tableC jobsC) = Some (final_state race_schedule) /\
  (j_key <$> jobsC !! 0%nat) = Some [0] /\ (j_key <$> jobsC !! 2%nat) = Some [0] /\
  c_phase (final_state race_schedule) !! 0%nat = Some (Added 0 true 0) /\
  c_phase (final_state race_schedule) !! 2%nat = Some (Added 1 true 2).
Proof.
  split; [vm_compute; reflexivity|]. split; [vm_compute; reflexivity|].
  vm_compute. repeat split.
Qed.

(** C5 (code bug): the premise that a key owns at most one bucket fails.
    After [race_schedule] buckets [0] and [1] are published with the
    [nid]s [0] and [2], whose stored keys are both [[0]]. *)
Theorem race_key_owns_two_buckets :
  run jobsC race_schedule (init_state tableC jobsC) = Some (final_state race_schedule) /\
  ht_entry2nid (c_table (final_state race_schedule)) = [0; 2; -1; 1] /\
  ht_keys (c_table (final_state race_schedule)) !! 0%nat = Some 0 /\
  ht_keys (c_table (final_state race_schedule)) !! 2%nat = Some 0 /\
  (j_key <$> jobsC !! 0%nat) = (j_key <$> jobsC !! 2%nat).
Proof. vm_compute. repeat split. Qed.

(** Termination of the splat inserts: for every schedule (equal row
    counts, the table's [int] index products in range), a thread that has
    not added its row can always take a step, a probing thread has failed
    fewer than [capacity = N * (pd + 1)] times, so it makes at most
    [capacity] [atomicCAS] attempts, and each thread takes at most
    [capacity + 2] steps.  The bound comes from the [N * (pd + 1)] threads
    each claiming at most one bucket, for good. *)
Lemma splat_insert_terminates sf canonical src ref jobs sched s :
  t_rows src = t_rows ref ->
  int_indices_fit (HashTableGPU (u16 (t_cols ref)) (u16 (t_cols src)) (t_rows src)) ->
  splat_jobs sf canonical src ref = KOk jobs ->
  run jobs sched (init_state (HashTableGPU (u16 (t_cols ref)) (u16 (t_cols src)) (t_rows src)) jobs)
    = Some s ->
  (forall i, (i < length jobs)%nat ->
     (exists s', thread_step jobs i s = Some s') \/
     exists h c sl, c_phase s !! i = Some (Added h c sl)) /\
  (forall i h k, c_phase s !! i = Some (Probing h k) ->
     (k < ht_capacity (HashTableGPU (u16 (t_cols ref)) (u16 (t_cols src)) (t_rows src)))%nat) /\
  (forall i, (count_occ Nat.eq_dec sched i <=
              ht_capacity (HashTableGPU (u16 (t_cols ref)) (u16 (t_cols src)) (t_rows src)) + 2)%nat).
Proof.
  intros Hrows Hfit Hk Hr.
  destruct (splat_jobs_fit sf canonical src ref jobs Hrows Hk) as (Hnid & Hlen & He & Hkeys & Hvals).
  set (t0 := HashTableGPU (u16 (t_cols ref)) (u16 (t_cols src)) (t_rows src)) in *.
  assert (Hs : cinv jobs t0 s) by (eapply cinv_reach; eauto; lia).
  split; [intros i Hi; eapply thread_progress; eauto; lia|]. split.
  - intros i h k Hi. rewrite <- Hlen. eapply probing_count; eauto; lia.
  - intros i. rewrite <- Hlen. eapply run_from_init_bounded; eauto; lia.
Qed.

(** The termination bounds on scenario C under [race_schedule]. *)
Lemma splat_insert_terminates_witness :
  (forall i, (i < length jobsC)%nat ->
     (exists s', thread_step jobsC i (final_state race_schedule) = Some s') \/
     exists h c sl, c_phase (final_state race_schedule) !! i = Some (Added h c sl)) /\
  (forall i h k, c_phase (final_state race_schedule) !! i = Some (Probing h k) ->
     (k < ht_capacity tableC)%nat) /\
  (forall i, (count_occ Nat.eq_dec race_schedule i <= ht_capacity tableC + 2)%nat).
Proof.
  apply (splat_insert_terminates (lattice_scale_factors libm_sqrt (t_cols posC))
           (canonical_table (t_cols posC)) featC posC jobsC race_schedule).
  - reflexivity.
  - unfold int_indices_fit. repeat split; apply Z.leb_le; vm_compute; reflexivity.
  - vm_compute. reflexivity.
  - vm_compute. reflexivity.
Defined.



